(** * phosg Strings.hh: binary readers and writers, comment stripping

    A shallow embedding of the byte-granularity cursor classes of
    [src/Strings.hh] ([StringReader], [StringWriter], [BufferWriter]) and of
    [strip_multiline_comments], with the properties the specification states
    about them.

    Conventions.
    - A [size_t] is a [Z] in [0, 2^64); its arithmetic wraps and the
      wrap-around is written out ([size_add]).
    - A byte is [Init.Byte.byte]; [byte.unsigned] reads it as a [uint8_t].
    - A pointer into a buffer is the index relative to the start of the
      buffer; reading or writing outside the buffer is undefined behaviour
      and is a result of its own ([Undefined]), distinct from a thrown
      exception.
    - Member functions that mutate [this] are functions from the object
      state to an outcome and the state left behind, so that what a throwing
      call leaves in the object can be stated. *)

From Stdlib Require Import ZArith Lia Ascii String.
From stdpp Require Import base list.
From coqutil Require Import Byte Word.LittleEndianList.

Local Open Scope Z_scope.

(** ** Machine integers *)

Definition SIZE_MAX : Z := 2 ^ 64 - 1.

(** [z] is a value of type [size_t]. *)
Definition is_size_t (z : Z) : Prop := 0 <= z <= SIZE_MAX.

(** [a + b] on [size_t] operands. *)
Definition size_add (a b : Z) : Z := (a + b) mod 2 ^ 64.

(** [a * b] on [size_t] operands. *)
Definition size_mul (a b : Z) : Z := (a * b) mod 2 ^ 64.

(** Conversion of an integer to [uintN_t]. *)
Definition to_unsigned (bits : Z) (z : Z) : Z := z mod 2 ^ bits.

(** Conversion of an integer to [intN_t] (two's complement). *)
Definition to_signed (bits : Z) (z : Z) : Z :=
  (z + 2 ^ (bits - 1)) mod 2 ^ bits - 2 ^ (bits - 1).

(** ** Exceptions and outcomes *)

Inductive exception : Type :=
| out_of_range (what : string)
| runtime_error (what : string)
| length_error.

Inductive outcome (A : Type) : Type :=
| Returns (a : A)
| Throws (e : exception)
| Undefined.
Arguments Returns {A} a.
Arguments Throws {A} e.
Arguments Undefined {A}.

#[global] Instance outcome_MRet : MRet outcome := @Returns.
#[global] Instance outcome_MBind : MBind outcome := fun A B f o =>
  match o with
  | Returns a => f a
  | Throws e => Throws e
  | Undefined => Undefined
  end.

#[global] Instance outcome_FMap : FMap outcome := fun A B f o =>
  x ← o; mret (f x).

(** State and exception monad of a member function of an object of type
    [S]: the outcome of the call and the object afterwards. *)
Definition method (S A : Type) : Type := S -> outcome A * S.

Definition method_ret {S A} (a : A) : method S A := fun s => (Returns a, s).

Definition method_bind {S A B} (f : A -> method S B) (m : method S A)
  : method S B :=
  fun s =>
    match m s with
    | (Returns a, s') => f a s'
    | (Throws e, s') => (Throws e, s')
    | (Undefined, s') => (Undefined, s')
    end.

#[global] Instance method_MRet {S} : MRet (method S) := @method_ret S.
#[global] Instance method_MBind {S} : MBind (method S) := @method_bind S.
#[global] Instance method_FMap {S} : FMap (method S) := fun A B f m =>
  x ← m; mret (f x).

(** The object the member function is called on. *)
Definition this {S} : method S S := fun s => (Returns s, s).

(** A [const] member function: it cannot change the object. *)
Definition const_method {S A} (f : S -> outcome A) : method S A :=
  fun s => (f s, s).

Definition modify {S} (f : S -> S) : method S unit := fun s => (Returns tt, f s).

(** Replace the object by the result of [f], when [f] completes. *)
Definition update {S} (f : S -> outcome S) : method S unit :=
  fun s =>
    match f s with
    | Returns s' => (Returns tt, s')
    | Throws e => (Throws e, s)
    | Undefined => (Undefined, s)
    end.

Definition when {S} (b : bool) (m : method S unit) : method S unit :=
  if b then m else mret tt.

(** ** Buffers *)

(** The [n] bytes at index [p] of [buf]; reading past the end of the buffer
    is undefined. *)
Definition load (buf : list byte) (p : Z) (n : Z) : outcome (list byte) :=
  if (0 <=? p) && (0 <=? n) && (p + n <=? Z.of_nat (List.length buf))
  then Returns (take (Z.to_nat n) (drop (Z.to_nat p) buf))
  else Undefined.

(** [buf[p]] as a [uint8_t]. *)
Definition load_u8 (buf : list byte) (p : Z) : outcome Z :=
  bs ← load buf p 1;
  match bs with
  | [b] => Returns (byte.unsigned b)
  | _ => Undefined
  end.

(** [memcpy(buf + p, src, n)]: the buffer afterwards; writing outside the
    buffer, or reading past the end of [src], is undefined. *)
Definition memcpy (buf : list byte) (p : Z) (src : list byte) (n : Z)
  : outcome (list byte) :=
  if (0 <=? p) && (0 <=? n) && (p + n <=? Z.of_nat (List.length buf))
     && (n <=? Z.of_nat (List.length src))
  then Returns (take (Z.to_nat p) buf ++ take (Z.to_nat n) src
                ++ drop (Z.to_nat (p + n)) buf)
  else Undefined.

(** A scalar type [T] of the accessors: its size and the conversion between
    its object representation and the value the accessor returns or takes. *)
Record ctype (V : Type) : Type := {
  sizeof : Z;
  from_bytes : list byte -> V;
  to_bytes : V -> list byte
}.
Arguments sizeof {V} c.
Arguments from_bytes {V} c bs.
Arguments to_bytes {V} c v.

(** The object representation of [v] occupies [sizeof T] bytes. *)
Definition ctype_ok {V} (T : ctype V) (v : V) : Prop :=
  Z.of_nat (List.length (to_bytes T v)) = sizeof T.

(** The built-in [uint8_t] and [int8_t]: one byte, the latter in two's
    complement. *)
Definition uint8_t : ctype Z := {|
  sizeof := 1;
  from_bytes bs := le_combine bs;
  to_bytes v := le_split 1 v
|}.

Definition int8_t : ctype Z := {|
  sizeof := 1;
  from_bytes bs := to_signed 8 (le_combine bs);
  to_bytes v := le_split 1 v
|}.

(** Modelled from the spec: the endianness-tagged integer types of
    [Encoding.hh] ([le_uint16_t], [be_int32_t], ...), which is not among the
    sources. A tagged field of [n] bytes holds its value least significant
    byte first (little-endian) or most significant byte first (big-endian),
    whatever the host byte order; signed fields are two's complement. The
    conversion to and from the plain integer type is part of the type. *)
Definition le_uint (n : nat) : ctype Z := {|
  sizeof := Z.of_nat n;
  from_bytes bs := le_combine bs;
  to_bytes v := le_split n v
|}.

(** Modelled from the spec: [be_uintN_t] of [Encoding.hh], an unsigned field
    of [n] bytes, most significant byte first. *)
Definition be_uint (n : nat) : ctype Z := {|
  sizeof := Z.of_nat n;
  from_bytes bs := le_combine (rev bs);
  to_bytes v := rev (le_split n v)
|}.

(** Modelled from the spec: [le_intN_t] of [Encoding.hh], a two's-complement
    field of [n] bytes, least significant byte first. *)
Definition le_int (n : nat) : ctype Z := {|
  sizeof := Z.of_nat n;
  from_bytes bs := to_signed (8 * Z.of_nat n) (le_combine bs);
  to_bytes v := le_split n v
|}.

(** Modelled from the spec: [be_intN_t] of [Encoding.hh], a two's-complement
    field of [n] bytes, most significant byte first. *)
Definition be_int (n : nat) : ctype Z := {|
  sizeof := Z.of_nat n;
  from_bytes bs := to_signed (8 * Z.of_nat n) (le_combine (rev bs));
  to_bytes v := rev (le_split n v)
|}.

Definition le_uint16_t := le_uint 2.
Definition be_uint16_t := be_uint 2.
Definition le_int16_t := le_int 2.
Definition be_int16_t := be_int 2.
Definition le_uint32_t := le_uint 4.
Definition be_uint32_t := be_uint 4.
Definition le_int32_t := le_int 4.
Definition be_int32_t := be_int 4.
Definition le_uint64_t := le_uint 8.
Definition be_uint64_t := be_uint 8.
Definition le_int64_t := le_int 8.
Definition be_int64_t := be_int 8.

(** Modelled from the spec: [ext24] and [ext48] of [Encoding.hh], which is
    not among the sources: two's-complement sign extension of a 24-bit
    (48-bit) value to [int32_t] ([int64_t]). When the sign bit of the narrow
    value is set the bits above it are set too, and the word is then read as
    a signed integer. *)
Definition ext24 (a : Z) : Z :=
  to_signed 32 (if Z.testbit a 23 then Z.lor a 0xFF000000 else a).

(** Modelled from the spec: [ext48] of [Encoding.hh], as [ext24], from 48
    bits to [int64_t]. *)
Definition ext48 (a : Z) : Z :=
  to_signed 64 (if Z.testbit a 47 then Z.lor a 0xFFFF000000000000 else a).

(** ** StringReader *)

Module StringReader.

Record t : Type := {
  data : list byte;
  length : Z;
  offset : Z
}.

Definition set_offset (r : t) (o : Z) : t :=
  {| data := data r; length := length r; offset := o |}.

(** The reader views [length] bytes of an allocation that holds at least
    as many, and its fields are [size_t] values. *)
Definition wf (r : t) : Prop :=
  0 <= length r <= Z.of_nat (List.length (data r))
  /\ Z.of_nat (List.length (data r)) <= SIZE_MAX
  /\ is_size_t (offset r).

Definition where_ (r : t) : Z := offset r.

(** [pgetv] returns the pointer [data + offset], here the index [offset];
    the sum [offset + size] of its test is a [size_t] sum. *)
Definition pgetv (r : t) (offset size : Z) : outcome Z :=
  if size_add offset size >? length r
  then Throws (out_of_range "end of string")
  else Returns offset.

(** [pget<T>] checks [size] bytes and reads a [T] through the pointer. *)
Definition pget {V} (T : ctype V) (r : t) (offset size : Z) : outcome V :=
  p ← pgetv r offset size;
  bs ← load (data r) p (sizeof T);
  mret (from_bytes T bs).

(** The cursor forms: the positional read at [this->offset], which may
    throw, then [this->offset += size]. *)
Definition getv (size : Z) (advance : bool) : method t Z :=
  ret ← const_method (fun r => pgetv r (offset r) size);
  when advance (modify (fun r => set_offset r (size_add (offset r) size)));;
  mret ret.

Definition get {V} (T : ctype V) (advance : bool) (size : Z) : method t V :=
  ret ← const_method (fun r => pget T r (offset r) size);
  when advance (modify (fun r => set_offset r (size_add (offset r) size)));;
  mret ret.

Definition get_u8 advance := get uint8_t advance (sizeof uint8_t).
Definition get_s8 advance := get int8_t advance (sizeof int8_t).
Definition pget_u8 r offset := pget uint8_t r offset (sizeof uint8_t).
Definition pget_s8 r offset := pget int8_t r offset (sizeof int8_t).

Definition get_u16b advance := get be_uint16_t advance (sizeof be_uint16_t).
Definition get_u16l advance := get le_uint16_t advance (sizeof le_uint16_t).
Definition get_s16b advance := get be_int16_t advance (sizeof be_int16_t).
Definition get_s16l advance := get le_int16_t advance (sizeof le_int16_t).
Definition pget_u16b r offset := pget be_uint16_t r offset (sizeof be_uint16_t).
Definition pget_u16l r offset := pget le_uint16_t r offset (sizeof le_uint16_t).
Definition pget_s16b r offset := pget be_int16_t r offset (sizeof be_int16_t).
Definition pget_s16l r offset := pget le_int16_t r offset (sizeof le_int16_t).

Definition get_u32b advance := get be_uint32_t advance (sizeof be_uint32_t).
Definition get_u32l advance := get le_uint32_t advance (sizeof le_uint32_t).
Definition get_s32b advance := get be_int32_t advance (sizeof be_int32_t).
Definition get_s32l advance := get le_int32_t advance (sizeof le_int32_t).
Definition pget_u32b r offset := pget be_uint32_t r offset (sizeof be_uint32_t).
Definition pget_u32l r offset := pget le_uint32_t r offset (sizeof le_uint32_t).
Definition pget_s32b r offset := pget be_int32_t r offset (sizeof be_int32_t).
Definition pget_s32l r offset := pget le_int32_t r offset (sizeof le_int32_t).

Definition get_u64b advance := get be_uint64_t advance (sizeof be_uint64_t).
Definition get_u64l advance := get le_uint64_t advance (sizeof le_uint64_t).
Definition get_s64b advance := get be_int64_t advance (sizeof be_int64_t).
Definition get_s64l advance := get le_int64_t advance (sizeof le_int64_t).
Definition pget_u64b r offset := pget be_uint64_t r offset (sizeof be_uint64_t).
Definition pget_u64l r offset := pget le_uint64_t r offset (sizeof le_uint64_t).
Definition pget_s64b r offset := pget be_int64_t r offset (sizeof be_int64_t).
Definition pget_s64l r offset := pget le_int64_t r offset (sizeof le_int64_t).

(** [a << k] on a [uint64_t] operand. *)
Definition shl64 (a k : Z) : Z := to_unsigned 64 (Z.shiftl a k).

Definition pget_u24b (r : t) (offset : Z) : outcome Z :=
  if size_add offset 3 >? length r
  then Throws (out_of_range "end of string")
  else
    b0 ← load_u8 (data r) offset;
    b1 ← load_u8 (data r) (size_add offset 1);
    b2 ← load_u8 (data r) (size_add offset 2);
    mret (to_unsigned 32 (Z.lor (Z.lor (Z.shiftl b0 16) (Z.shiftl b1 8)) b2)).

Definition pget_u24l (r : t) (offset : Z) : outcome Z :=
  if size_add offset 3 >? length r
  then Throws (out_of_range "end of string")
  else
    b0 ← load_u8 (data r) offset;
    b1 ← load_u8 (data r) (size_add offset 1);
    b2 ← load_u8 (data r) (size_add offset 2);
    mret (to_unsigned 32 (Z.lor (Z.lor b0 (Z.shiftl b1 8)) (Z.shiftl b2 16))).

Definition pget_s24b (r : t) (offset : Z) : outcome Z :=
  ext24 <$> pget_u24b r offset.
Definition pget_s24l (r : t) (offset : Z) : outcome Z :=
  ext24 <$> pget_u24l r offset.

Definition get_u24b (advance : bool) : method t Z :=
  ret ← const_method (fun r => pget_u24b r (offset r));
  when advance (modify (fun r => set_offset r (size_add (offset r) 3)));;
  mret ret.

Definition get_u24l (advance : bool) : method t Z :=
  ret ← const_method (fun r => pget_u24l r (offset r));
  when advance (modify (fun r => set_offset r (size_add (offset r) 3)));;
  mret ret.

Definition get_s24b (advance : bool) : method t Z := ext24 <$> get_u24b advance.
Definition get_s24l (advance : bool) : method t Z := ext24 <$> get_u24l advance.

Definition pget_u48b (r : t) (offset : Z) : outcome Z :=
  if size_add offset 6 >? length r
  then Throws (out_of_range "end of string")
  else
    b0 ← load_u8 (data r) offset;
    b1 ← load_u8 (data r) (size_add offset 1);
    b2 ← load_u8 (data r) (size_add offset 2);
    b3 ← load_u8 (data r) (size_add offset 3);
    b4 ← load_u8 (data r) (size_add offset 4);
    b5 ← load_u8 (data r) (size_add offset 5);
    mret (Z.lor (Z.lor (Z.lor (Z.lor (Z.lor
            (shl64 b0 40) (shl64 b1 32)) (shl64 b2 24)) (shl64 b3 16))
            (shl64 b4 8)) b5).

Definition pget_u48l (r : t) (offset : Z) : outcome Z :=
  if size_add offset 6 >? length r
  then Throws (out_of_range "end of string")
  else
    b0 ← load_u8 (data r) offset;
    b1 ← load_u8 (data r) (size_add offset 1);
    b2 ← load_u8 (data r) (size_add offset 2);
    b3 ← load_u8 (data r) (size_add offset 3);
    b4 ← load_u8 (data r) (size_add offset 4);
    b5 ← load_u8 (data r) (size_add offset 5);
    mret (Z.lor (Z.lor (Z.lor (Z.lor (Z.lor
            b0 (shl64 b1 8)) (shl64 b2 16)) (shl64 b3 24))
            (shl64 b4 32)) (shl64 b5 40)).

Definition pget_s48b (r : t) (offset : Z) : outcome Z :=
  ext48 <$> pget_u48b r offset.
Definition pget_s48l (r : t) (offset : Z) : outcome Z :=
  ext48 <$> pget_u48l r offset.

Definition get_u48b (advance : bool) : method t Z :=
  ret ← const_method (fun r => pget_u48b r (offset r));
  when advance (modify (fun r => set_offset r (size_add (offset r) 6)));;
  mret ret.

Definition get_u48l (advance : bool) : method t Z :=
  ret ← const_method (fun r => pget_u48l r (offset r));
  when advance (modify (fun r => set_offset r (size_add (offset r) 6)));;
  mret ret.

Definition get_s48b (advance : bool) : method t Z := ext48 <$> get_u48b advance.
Definition get_s48l (advance : bool) : method t Z := ext48 <$> get_u48l advance.

(** [pget_array<T>] and [get_array<T>]: [count] elements of [sizeof(T)]
    bytes; the product is a [size_t] product. The pointer to the first
    element is returned. *)
Definition pget_array {V} (T : ctype V) (r : t) (offset count : Z) : outcome Z :=
  pgetv r offset (size_mul count (sizeof T)).

Definition get_array {V} (T : ctype V) (count : Z) (advance : bool)
  : method t Z :=
  ret ← const_method (fun r => pget_array T r (offset r) count);
  when advance (modify (fun r =>
    set_offset r (size_add (offset r) (size_mul count (sizeof T)))));;
  mret ret.

(** Modelled from the spec: the constructor [StringReader(const std::string&
    data, size_t offset)], declared in the header and defined in
    [Strings.cc], which is not among the sources: a reader over the bytes
    of [data] with the cursor at [offset]. *)
Definition of_string (s : list byte) (offset : Z) : t :=
  {| data := s; length := Z.of_nat (List.length s); offset := offset |}.

(** Modelled from the spec: [std::string pread(size_t offset, size_t size)
    const], declared in the header and defined in [Strings.cc], which is not
    among the sources. It copies out the [size] bytes at [offset]; as the
    form without the [x] suffix it is a best-effort short read, so it
    returns what is available when the span runs past the end. It is a
    [const] member function. *)
Definition pread (offset size : Z) : method t (list byte) :=
  const_method (fun r =>
    Returns (take (Z.to_nat size)
               (drop (Z.to_nat offset) (take (Z.to_nat (length r)) (data r))))).

End StringReader.

(** ** StringWriter *)

Module StringWriter.

Record t : Type := {
  contents : list byte
}.

Definition size (w : t) : Z := Z.of_nat (List.length (contents w)).

Definition str (w : t) : list byte := contents w.

Section WithMaxSize.

(** [std::string::max_size()], a constant of the standard library. *)
Variable max_size : Z.

(** The string holds at most [max_size] bytes, and [max_size] is a
    [size_t]. *)
Definition wf (w : t) : Prop :=
  size w <= max_size /\ max_size <= SIZE_MAX.

(** [std::string::resize(n, c)]. The standard makes it throw
    [std::length_error] past [max_size()]; running out of memory
    ([std::bad_alloc]) is not modelled. *)
Definition string_resize (n : Z) (c : byte) (s : list byte)
  : outcome (list byte) :=
  if n >? max_size
  then Throws length_error
  else Returns (take (Z.to_nat n) s
                ++ replicate (Z.to_nat n - List.length s)%nat c).

(** [std::string::append(src, n)]; reading past the end of [src] is
    undefined. *)
Definition string_append (src : list byte) (n : Z) (s : list byte)
  : outcome (list byte) :=
  if n >? max_size - Z.of_nat (List.length s)
  then Throws length_error
  else if (0 <=? n) && (n <=? Z.of_nat (List.length src))
       then Returns (s ++ take (Z.to_nat n) src)
       else Undefined.

Definition on_contents (f : list byte -> outcome (list byte)) : method t unit :=
  update (fun w => s ← f (contents w); mret {| contents := s |}).


Definition extend_by (n : Z) (v : byte) : method t unit :=
  on_contents (fun s =>
    string_resize (size_add (Z.of_nat (List.length s)) n) v s).

Definition put {V} (T : ctype V) (v : V) : method t unit :=
  on_contents (string_append (to_bytes T v) (sizeof T)).

Definition pput {V} (T : ctype V) (offset : Z) (v : V) : method t unit :=
  w ← this;
  (if size_add offset (sizeof T) >? size w
   then on_contents (string_resize (size_add offset (sizeof T)) Byte.x00)
   else mret tt);;
  on_contents (fun s => memcpy s offset (to_bytes T v) (sizeof T)).

Definition put_u8 := put uint8_t.
Definition put_s8 := put int8_t.
Definition put_u16b := put be_uint16_t.
Definition put_s16b := put be_int16_t.
Definition put_u32b := put be_uint32_t.
Definition put_s32b := put be_int32_t.
Definition put_u64b := put be_uint64_t.
Definition put_s64b := put be_int64_t.
Definition put_u16l := put le_uint16_t.
Definition put_s16l := put le_int16_t.
Definition put_u32l := put le_uint32_t.
Definition put_s32l := put le_int32_t.
Definition put_u64l := put le_uint64_t.
Definition put_s64l := put le_int64_t.

Definition pput_u8 := pput uint8_t.
Definition pput_s8 := pput int8_t.
Definition pput_u16b := pput be_uint16_t.
Definition pput_s16b := pput be_int16_t.
Definition pput_u32b := pput be_uint32_t.
Definition pput_s32b := pput be_int32_t.
Definition pput_u64b := pput be_uint64_t.
Definition pput_s64b := pput be_int64_t.
Definition pput_u16l := pput le_uint16_t.
Definition pput_s16l := pput le_int16_t.
Definition pput_u32l := pput le_uint32_t.
Definition pput_s32l := pput le_int32_t.
Definition pput_u64l := pput le_uint64_t.
Definition pput_s64l := pput le_int64_t.

End WithMaxSize.

End StringWriter.

(** ** BufferWriter *)

Module BufferWriter.

Record t : Type := {
  buf : list byte;
  buf_size : Z;
  offset : Z
}.

Definition set_buf (w : t) (b : list byte) : t :=
  {| buf := b; buf_size := buf_size w; offset := offset w |}.

Definition set_offset (w : t) (o : Z) : t :=
  {| buf := buf w; buf_size := buf_size w; offset := o |}.

(** The constructor's precondition: [buf] points to [buf_size] bytes. *)
Definition wf (w : t) : Prop :=
  buf_size w = Z.of_nat (List.length (buf w))
  /\ buf_size w <= SIZE_MAX
  /\ is_size_t (offset w).

Definition pwrite (offset : Z) (data : list byte) (size : Z) : method t unit :=
  update (fun w =>
    if size_add offset size >? buf_size w
    then Throws (runtime_error "Offset out of bounds")
    else b ← memcpy (buf w) offset data size; mret (set_buf w b)).

Definition pwrite_string (offset : Z) (data : list byte) : method t unit :=
  pwrite offset data (Z.of_nat (List.length data)).

Definition write (data : list byte) (size : Z) : method t unit :=
  w ← this;
  pwrite (offset w) data size;;
  modify (fun w => set_offset w (size_add (offset w) size)).

Definition write_string (data : list byte) : method t unit :=
  write data (Z.of_nat (List.length data)).

Definition put {V} (T : ctype V) (v : V) : method t unit :=
  write (to_bytes T v) (sizeof T).

Definition pput {V} (T : ctype V) (offset : Z) (v : V) : method t unit :=
  pwrite offset (to_bytes T v) (sizeof T).

End BufferWriter.

(** ** strip_multiline_comments *)

Definition char_at (s : list ascii) (i : nat) : ascii :=
  default "000"%char (s !! i).

(** The local variables of the loop, with the string it rewrites in
    place. *)
Record strip_state : Type := {
  s : list ascii;
  is_in_comment : bool;
  write_offset : nat;
  z : nat
}.

(** One iteration of the loop body. *)
Definition strip_body (st : strip_state) : strip_state :=
  let '{| s := s; is_in_comment := is_in_comment;
          write_offset := write_offset; z := z |} := st in
  if negb is_in_comment then
    if Ascii.eqb (char_at s z) "/" && (z + 1 <? List.length s)%nat
       && Ascii.eqb (char_at s (z + 1)) "*"
    then {| s := s; is_in_comment := true;
            write_offset := write_offset; z := z + 2 |}
    else {| s := <[write_offset := char_at s z]> s;
            is_in_comment := is_in_comment;
            write_offset := write_offset + 1; z := z + 1 |}
  else
    if Ascii.eqb (char_at s z) "*" && (z + 1 <? List.length s)%nat
       && Ascii.eqb (char_at s (z + 1)) "/"
    then {| s := s; is_in_comment := false;
            write_offset := write_offset; z := z + 2 |}
    else
      if Ascii.eqb (char_at s z) "010"
      then {| s := <[write_offset := "010"%char]> s;
              is_in_comment := is_in_comment;
              write_offset := write_offset + 1; z := z + 1 |}
      else {| s := s; is_in_comment := is_in_comment;
              write_offset := write_offset; z := z + 1 |}.

(** [for (...; z < s.size();) body], at most [fuel] iterations. *)
Fixpoint strip_loop (fuel : nat) (st : strip_state) : strip_state :=
  match fuel with
  | O => st
  | S fuel' =>
      if (z st <? List.length (s st))%nat
      then strip_loop fuel' (strip_body st)
      else st
  end.

(** The string is passed by reference: the call leaves a string behind
    whether it returns or throws. Every iteration advances [z], so
    [s.size()] iterations are enough ([strip_loop_exits]). *)
Definition strip_multiline_comments (allow_unterminated : bool)
  : method (list ascii) unit :=
  fun str =>
    let st := strip_loop (List.length str)
                {| s := str; is_in_comment := false;
                   write_offset := 0; z := 0 |} in
    let s' := take (write_offset st) (s st)
              ++ replicate (write_offset st - List.length (s st)) "000"%char in
    if negb allow_unterminated && is_in_comment st
    then (Throws (runtime_error "unterminated multiline comment"), s')
    else (Returns tt, s').

(** ** Whitespace and zero stripping *)

(** The members of [std::basic_string] the strip functions use.
    [find_first_not_of] and [find_last_not_of] return the index of the first
    (last) character that is not in [chars]; [None] stands for [npos], which
    is no index of any string. *)
Definition in_chars (chars : list ascii) (c : ascii) : bool :=
  existsb (Ascii.eqb c) chars.

Fixpoint find_first_not_of (chars : list ascii) (s : list ascii)
  : option nat :=
  match s with
  | [] => None
  | c :: s' =>
      if in_chars chars c
      then S <$> find_first_not_of chars s'
      else Some 0%nat
  end.

Fixpoint find_last_not_of (chars : list ascii) (s : list ascii)
  : option nat :=
  match s with
  | [] => None
  | c :: s' =>
      match find_last_not_of chars s' with
      | Some i => Some (S i)
      | None => if in_chars chars c then None else Some 0%nat
      end
  end.

(** [s.resize(n)]. *)
Definition resize (s : list ascii) (n : nat) : list ascii :=
  take n s ++ replicate (n - List.length s) "000"%char.

(** [s.substr(pos)] and [s.substr(pos, n)], for [pos <= s.size()]. *)
Definition substr_from (s : list ascii) (pos : nat) : list ascii :=
  drop pos s.

Definition substr (s : list ascii) (pos n : nat) : list ascii :=
  take n (drop pos s).

(** [s.empty()]. *)
Definition string_empty (s : list ascii) : bool :=
  match s with
  | [] => true
  | _ :: _ => false
  end.

(** The characters of [" \t\r\n"]. *)
Definition whitespace_chars : list ascii := [" "; "009"; "013"; "010"]%char.

(** [(s[0] == ' ') || (s[0] == '\t') || (s[0] == '\r') || (s[0] == '\n')]. *)
Definition starts_with_whitespace (s : list ascii) : bool :=
  Ascii.eqb (char_at s 0) " " || Ascii.eqb (char_at s 0) "009"
  || Ascii.eqb (char_at s 0) "013" || Ascii.eqb (char_at s 0) "010".

Definition strip_trailing_zeroes (s : list ascii) : list ascii :=
  match find_last_not_of ["000"%char] s with
  | Some index => resize s (index + 1)
  | None =>
      if negb (string_empty s) && Ascii.eqb (char_at s 0) "000"
      then resize s 0
      else s
  end.

Definition strip_trailing_whitespace (s : list ascii) : list ascii :=
  match find_last_not_of whitespace_chars s with
  | Some index => resize s (index + 1)
  | None =>
      if negb (string_empty s) && starts_with_whitespace s
      then resize s 0
      else s
  end.

Definition strip_leading_whitespace (s : list ascii) : list ascii :=
  match find_first_not_of whitespace_chars s with
  | Some index => substr_from s index
  | None =>
      if negb (string_empty s) && starts_with_whitespace s
      then resize s 0
      else s
  end.

Definition strip_whitespace (s : list ascii) : list ascii :=
  match find_first_not_of whitespace_chars s,
        find_last_not_of whitespace_chars s with
  | Some start_index, Some end_index =>
      if (0 <? start_index)%nat
      then substr s start_index (end_index - start_index + 1)
      else resize s (end_index + 1)
  | _, _ =>
      if negb (string_empty s) && starts_with_whitespace s
      then resize s 0
      else s
  end.

(** ** join *)

(** [join(items, delim)]: the delimiter is added when what was joined so far
    is not empty. *)
Definition join_with (items : list (list ascii)) (delim : list ascii)
  : list ascii :=
  fold_left
    (fun ret item => (if negb (string_empty ret) then ret ++ delim else ret) ++ item)
    items [].

(** [join(items)]. *)
Definition join (items : list (list ascii)) : list ascii :=
  fold_left (fun ret item => ret ++ item) items [].

(** ** Log levels *)

Inductive LogLevel : Type :=
| L_USE_DEFAULT
| L_DEBUG
| L_INFO
| L_WARNING
| L_ERROR
| L_DISABLED.

(** [static_cast<int>(level)]. *)
Definition LogLevel_to_int (level : LogLevel) : Z :=
  match level with
  | L_USE_DEFAULT => -1
  | L_DEBUG => 0
  | L_INFO => 1
  | L_WARNING => 2
  | L_ERROR => 3
  | L_DISABLED => 4
  end.

Definition should_log (incoming_level min_level : LogLevel) : bool :=
  LogLevel_to_int incoming_level >=? LogLevel_to_int min_level.

Module PrefixedLogger.

Record t : Type := {
  prefix : list ascii;
  min_level : LogLevel
}.

Section WithLogLevel.

(** The value of the global [log_level()], which is defined in
    [Strings.cc]. *)
Variable log_level : LogLevel.

Definition effective_level (l : t) : LogLevel :=
  match min_level l with
  | L_USE_DEFAULT => log_level
  | _ => min_level l
  end.

Definition should_log (l : t) (incoming_level : LogLevel) : bool :=
  LogLevel_to_int incoming_level >=? LogLevel_to_int (effective_level l).

End WithLogLevel.

End PrefixedLogger.

(** ** The typed accessor surface *)

Inductive int_width : Type := W8 | W16 | W24 | W32 | W48 | W64.
Inductive signedness : Type := Unsigned | Signed.
Inductive byte_order : Type := BigEndian | LittleEndian.

Definition bits (w : int_width) : Z :=
  match w with
  | W8 => 8 | W16 => 16 | W24 => 24 | W32 => 32 | W48 => 48 | W64 => 64
  end.

(** [StringReader::get_{u,s}{8,16,24,32,48,64}{b,l}]. The 8-bit accessors
    carry no byte-order suffix. *)
Definition reader_get (w : int_width) (s : signedness) (o : byte_order)
  : bool -> method StringReader.t Z :=
  match w, s, o with
  | W8, Unsigned, _ => StringReader.get_u8
  | W8, Signed, _ => StringReader.get_s8
  | W16, Unsigned, BigEndian => StringReader.get_u16b
  | W16, Unsigned, LittleEndian => StringReader.get_u16l
  | W16, Signed, BigEndian => StringReader.get_s16b
  | W16, Signed, LittleEndian => StringReader.get_s16l
  | W24, Unsigned, BigEndian => StringReader.get_u24b
  | W24, Unsigned, LittleEndian => StringReader.get_u24l
  | W24, Signed, BigEndian => StringReader.get_s24b
  | W24, Signed, LittleEndian => StringReader.get_s24l
  | W32, Unsigned, BigEndian => StringReader.get_u32b
  | W32, Unsigned, LittleEndian => StringReader.get_u32l
  | W32, Signed, BigEndian => StringReader.get_s32b
  | W32, Signed, LittleEndian => StringReader.get_s32l
  | W48, Unsigned, BigEndian => StringReader.get_u48b
  | W48, Unsigned, LittleEndian => StringReader.get_u48l
  | W48, Signed, BigEndian => StringReader.get_s48b
  | W48, Signed, LittleEndian => StringReader.get_s48l
  | W64, Unsigned, BigEndian => StringReader.get_u64b
  | W64, Unsigned, LittleEndian => StringReader.get_u64l
  | W64, Signed, BigEndian => StringReader.get_s64b
  | W64, Signed, LittleEndian => StringReader.get_s64l
  end.

(** [StringWriter::put_{u,s}{8,16,32,64}{b,l}]. The class declares no
    24-bit and no 48-bit [put]. *)
Definition writer_put (max_size : Z) (w : int_width) (s : signedness)
    (o : byte_order) : option (Z -> method StringWriter.t unit) :=
  match w, s, o with
  | W8, Unsigned, _ => Some (StringWriter.put_u8 max_size)
  | W8, Signed, _ => Some (StringWriter.put_s8 max_size)
  | W16, Unsigned, BigEndian => Some (StringWriter.put_u16b max_size)
  | W16, Unsigned, LittleEndian => Some (StringWriter.put_u16l max_size)
  | W16, Signed, BigEndian => Some (StringWriter.put_s16b max_size)
  | W16, Signed, LittleEndian => Some (StringWriter.put_s16l max_size)
  | W32, Unsigned, BigEndian => Some (StringWriter.put_u32b max_size)
  | W32, Unsigned, LittleEndian => Some (StringWriter.put_u32l max_size)
  | W32, Signed, BigEndian => Some (StringWriter.put_s32b max_size)
  | W32, Signed, LittleEndian => Some (StringWriter.put_s32l max_size)
  | W64, Unsigned, BigEndian => Some (StringWriter.put_u64b max_size)
  | W64, Unsigned, LittleEndian => Some (StringWriter.put_u64l max_size)
  | W64, Signed, BigEndian => Some (StringWriter.put_s64b max_size)
  | W64, Signed, LittleEndian => Some (StringWriter.put_s64l max_size)
  | W24, _, _ => None
  | W48, _, _ => None
  end.

(** [v] is a value of the integer type of width [w] and signedness [s]. *)
Definition representable (w : int_width) (s : signedness) (v : Z) : Prop :=
  match s with
  | Unsigned => 0 <= v < 2 ^ bits w
  | Signed => - 2 ^ (bits w - 1) <= v < 2 ^ (bits w - 1)
  end.

(** ** Specification vocabulary *)

(** The value of a byte sequence read most significant byte first. *)
Definition be_value (bs : list byte) : Z :=
  fold_left (fun acc b => acc * 256 + byte.unsigned b) bs 0.

(** The value of a byte sequence read least significant byte first. *)
Definition le_value (bs : list byte) : Z :=
  fold_right (fun b acc => byte.unsigned b + 256 * acc) 0 bs.

(** The number that the [bits]-bit pattern [u] denotes in two's
    complement. *)
Definition twos_complement (bits : Z) (u : Z) : Z :=
  if u <? 2 ^ (bits - 1) then u else u - 2 ^ bits.

(** The [n] bytes of the reader's buffer at [offset]. *)
Definition bytes_at (r : StringReader.t) (offset n : Z) : list byte :=
  take (Z.to_nat n) (drop (Z.to_nat offset) (StringReader.data r)).

(** The cursor read [m] returns [v] and, when asked to advance, moves the
    cursor by [n] and changes nothing else. *)
Definition reads_at_cursor (m : bool -> method StringReader.t Z)
    (r : StringReader.t) (v : Z) (n : Z) : Prop :=
  forall advance : bool,
    m advance r
    = (Returns v,
       if advance
       then StringReader.set_offset r (StringReader.offset r + n)
       else r).

(** A call that throws leaves the object as it found it. *)
Definition failure_atomic {S A} (m : method S A) : Prop :=
  forall (s : S) (e : exception), (m s).1 = Throws e -> (m s).2 = s.

(** [n] calls of [m] in a row, with their results. *)
Fixpoint call_times {S A} (n : nat) (m : method S A) : method S (list A) :=
  match n with
  | O => mret []
  | S n' => x ← m; xs ← call_times n' m; mret (x :: xs)
  end.

(** The loop of [strip_multiline_comments] as a function on the characters
    still to be read: what it writes for them and whether it ends inside a
    comment, when it starts on them in the given mode. *)
Fixpoint strip_chars (in_comment : bool) (l : list ascii)
  : list ascii * bool :=
  match l with
  | [] => ([], in_comment)
  | c :: l' =>
      if in_comment then
        match l' with
        | d :: l'' =>
            if Ascii.eqb c "*" && Ascii.eqb d "/"
            then strip_chars false l''
            else let '(out, b) := strip_chars true l' in
                 (if Ascii.eqb c "010" then "010"%char :: out else out, b)
        | [] => (if Ascii.eqb c "010" then ["010"%char] else [], true)
        end
      else
        match l' with
        | d :: l'' =>
            if Ascii.eqb c "/" && Ascii.eqb d "*"
            then strip_chars true l''
            else let '(out, b) := strip_chars false l' in (c :: out, b)
        | [] => ([c], false)
        end
  end.

(** The characters [a b] occur next to each other in [l]. *)
Fixpoint has_pair (a b : ascii) (l : list ascii) : bool :=
  match l with
  | x :: l' =>
      match l' with
      | y :: _ => (Ascii.eqb x a && Ascii.eqb y b) || has_pair a b l'
      | [] => false
      end
  | [] => false
  end.

(** The newline characters of [l]. *)
Definition newlines (l : list ascii) : list ascii :=
  List.filter (fun c => Ascii.eqb c "010") l.

Definition count_newlines (l : list ascii) : nat := List.length (newlines l).

Definition comment_open : list ascii := ["/"; "*"]%char.
Definition comment_close : list ascii := ["*"; "/"]%char.

(** The comment structure of a text. [outside_comment l kept open] reads
    [l] from a position outside any comment: [l] is text without a comment
    opener up to the end, or such text, an opener and a remainder read
    inside the comment. [inside_comment l kept open] reads [l] from inside a
    comment: the comment runs to the end of [l] without a closer, and the
    text ends in an unterminated comment ([open] is [true]), or it runs up
    to its closer, and the remainder is read outside. [kept] is the text
    outside the comments, in order, with the newlines of each comment at
    the place of the comment. *)
Inductive outside_comment : list ascii -> list ascii -> bool -> Prop :=
| text_to_end (t : list ascii) :
    has_pair "/" "*" t = false ->
    outside_comment t t false
| text_then_comment (t rest kept : list ascii) (open : bool) :
    has_pair "/" "*" t = false ->
    inside_comment rest kept open ->
    outside_comment (t ++ comment_open ++ rest) (t ++ kept) open
with inside_comment : list ascii -> list ascii -> bool -> Prop :=
| comment_to_end (c : list ascii) :
    has_pair "*" "/" c = false ->
    inside_comment c (newlines c) true
| comment_then_text (c rest kept : list ascii) (open : bool) :
    has_pair "*" "/" c = false ->
    outside_comment rest kept open ->
    inside_comment (c ++ comment_close ++ rest) (newlines c ++ kept) open.

(** [chars] holds every character of [s]. *)
Definition all_in (chars : list ascii) (s : list ascii) : bool :=
  forallb (in_chars chars) s.

(** [s] neither starts nor ends with a character of [chars]. *)
Definition clean_ends (chars : list ascii) (s : list ascii) : Prop :=
  (forall c, head s = Some c -> in_chars chars c = false)
  /\ (forall c, last s = Some c -> in_chars chars c = false).

(** The items with [delim] between them. *)
Definition intercalate (delim : list ascii) (items : list (list ascii))
  : list ascii :=
  match items with
  | [] => []
  | x :: xs => x ++ concat (map (fun item => delim ++ item) xs)
  end.

(** The items from the first one that is not empty. *)
Fixpoint drop_leading_empty (items : list (list ascii))
  : list (list ascii) :=
  match items with
  | [] => []
  | x :: xs => if string_empty x then drop_leading_empty xs else items
  end.

(** The cursor of the reader is inside its view. *)
Definition cursor_in_view (r : StringReader.t) : Prop :=
  0 <= StringReader.offset r <= StringReader.length r.

(** A call of [m] that returns leaves the cursor inside the view and the
    view as it was. *)
Definition keeps_cursor_in_view {A} (m : method StringReader.t A) : Prop :=
  forall (r r' : StringReader.t) (a : A),
    cursor_in_view r -> m r = (Returns a, r') ->
    cursor_in_view r'
    /\ StringReader.data r' = StringReader.data r
    /\ StringReader.length r' = StringReader.length r.




Scheme outside_comment_mut := Induction for outside_comment Sort Prop
  with inside_comment_mut := Induction for inside_comment Sort Prop.

(** * Properties *)

(** ** Machine integers and buffers *)

Lemma size_add_nowrap a b :
  0 <= a -> 0 <= b -> a + b <= SIZE_MAX -> size_add a b = a + b.
Proof.
  intros Ha Hb Hab. unfold size_add, SIZE_MAX in *.
  apply Z.mod_small. lia.
Qed.

Lemma size_add_range a b : is_size_t (size_add a b).
Proof.
  unfold is_size_t, size_add, SIZE_MAX.
  pose proof (Z.mod_pos_bound (a + b) (2 ^ 64) ltac:(lia)). lia.
Qed.

Lemma load_in_bounds buf p n :
  0 <= p -> 0 <= n -> p + n <= Z.of_nat (List.length buf) ->
  load buf p n = Returns (take (Z.to_nat n) (drop (Z.to_nat p) buf)).
Proof.
  intros Hp Hn Hb. unfold load.
  rewrite (proj2 (Z.leb_le 0 p)), (proj2 (Z.leb_le 0 n)) by assumption.
  rewrite (proj2 (Z.leb_le _ _) Hb). reflexivity.
Qed.

Lemma load_length buf p n bs :
  load buf p n = Returns bs -> Z.of_nat (List.length bs) = n.
Proof.
  unfold load. intros H.
  destruct (0 <=? p) eqn:Hp; [|discriminate].
  destruct (0 <=? n) eqn:Hn; [|discriminate].
  destruct (p + n <=? Z.of_nat (List.length buf)) eqn:Hb; [|discriminate].
  simpl in H. injection H as <-.
  apply Z.leb_le in Hp, Hn, Hb.
  rewrite length_take, length_drop. lia.
Qed.

Lemma load_u8_in_bounds buf p :
  0 <= p < Z.of_nat (List.length buf) ->
  exists b, buf !! Z.to_nat p = Some b
            /\ load_u8 buf p = Returns (byte.unsigned b).
Proof.
  intros Hp. unfold load_u8.
  rewrite load_in_bounds by lia.
  destruct (lookup_lt_is_Some_2 buf (Z.to_nat p) ltac:(lia)) as [b Hb].
  exists b. split; [assumption|].
  rewrite (drop_S _ _ _ Hb). reflexivity.
Qed.

(** ** StringReader: the bounds check *)

Lemma pgetv_in_bounds r offset size :
  0 <= offset -> 0 <= size ->
  offset + size <= StringReader.length r -> StringReader.length r <= SIZE_MAX ->
  StringReader.pgetv r offset size = Returns offset.
Proof.
  intros Ho Hs Hb Hl. unfold StringReader.pgetv.
  rewrite size_add_nowrap by lia.
  destruct (offset + size >? StringReader.length r) eqn:E; [|reflexivity].
  apply Z.gtb_lt in E. lia.
Qed.

Lemma pgetv_out_of_bounds r offset size :
  0 <= offset -> 0 <= size -> offset + size <= SIZE_MAX ->
  StringReader.length r < offset + size ->
  StringReader.pgetv r offset size = Throws (out_of_range "end of string").
Proof.
  intros Ho Hs Hw Hb. unfold StringReader.pgetv.
  rewrite size_add_nowrap by lia.
  destruct (offset + size >? StringReader.length r) eqn:E; [reflexivity|].
  rewrite Z.gtb_ltb in E. apply Z.ltb_ge in E. lia.
Qed.

(** C1, at the input where the code departs from it. The reader holds one
    byte and is asked for the byte at [offset = 2^64 - 1]. The span
    [[2^64-1, 2^64)] is not inside [[0, 1)], so the claim asks for
    [out_of_range]. The sum [offset + size] wraps to [0], the check passes,
    [pgetv] returns the pointer [data + (2^64-1)] and [pget] reads through
    it, outside the buffer. *)
Theorem pgetv_bounds_check_wraps :
  let r := StringReader.of_string [Byte.x07] 0 in
  let offset := 2 ^ 64 - 1 in
  let size := 1 in
  StringReader.wf r /\ is_size_t offset /\ is_size_t size
  /\ ~ offset + size <= StringReader.length r
  /\ size_add offset size = 0
  /\ StringReader.pgetv r offset size = Returns offset
  /\ StringReader.pget_u8 r offset = Undefined.
Proof.
  cbv zeta. unfold StringReader.wf, is_size_t, SIZE_MAX. simpl.
  repeat split; try lia; reflexivity.
Qed.

(** ** StringReader: failed reads *)

(** Every cursor read has this shape: a [const] positional read at the
    cursor, then the advance. *)
Lemma read_then_advance_run {S A} (f : S -> outcome A) (g : S -> S)
    (advance : bool) (s : S) :
  (ret ← const_method f; when advance (modify g);; mret ret) s
  = match f s with
    | Returns a => (Returns a, if advance then g s else s)
    | Throws e => (Throws e, s)
    | Undefined => (Undefined, s)
    end.
Proof.
  unfold mbind, method_MBind, method_bind, const_method.
  destruct (f s); try reflexivity.
  destruct advance; reflexivity.
Qed.

Lemma failure_atomic_read_then_advance {S A} (f : S -> outcome A)
    (g : S -> S) (advance : bool) :
  failure_atomic (ret ← const_method f; when advance (modify g);; mret ret).
Proof.
  intros s e. rewrite read_then_advance_run.
  destruct (f s); simpl; congruence.
Qed.

Lemma failure_atomic_fmap {S A B} (h : A -> B) (m : method S A) :
  failure_atomic m -> failure_atomic (h <$> m).
Proof.
  intros Hm s e. specialize (Hm s).
  unfold fmap, method_FMap, mbind, method_MBind, method_bind.
  destruct (m s) as [[a|e'|] s']; simpl in *; try congruence.
  intros H. injection H as ->. eauto.
Qed.

(** C2. A [get] that throws has changed nothing: [getv], [get<T>] for
    every scalar type [T] and every [size], and the typed wrappers leave the
    reader, cursor and buffer, exactly as it was. *)
Theorem failed_get_leaves_reader_unchanged :
  (forall size advance, failure_atomic (StringReader.getv size advance))
  /\ (forall V (T : ctype V) advance size,
        failure_atomic (StringReader.get T advance size))
  /\ (forall advance,
        failure_atomic (StringReader.get_u8 advance)
        /\ failure_atomic (StringReader.get_s8 advance)
        /\ failure_atomic (StringReader.get_u16b advance)
        /\ failure_atomic (StringReader.get_u16l advance)
        /\ failure_atomic (StringReader.get_s16b advance)
        /\ failure_atomic (StringReader.get_s16l advance)
        /\ failure_atomic (StringReader.get_u32b advance)
        /\ failure_atomic (StringReader.get_u32l advance)
        /\ failure_atomic (StringReader.get_s32b advance)
        /\ failure_atomic (StringReader.get_s32l advance)
        /\ failure_atomic (StringReader.get_u64b advance)
        /\ failure_atomic (StringReader.get_u64l advance)
        /\ failure_atomic (StringReader.get_s64b advance)
        /\ failure_atomic (StringReader.get_s64l advance)
        /\ failure_atomic (StringReader.get_u24b advance)
        /\ failure_atomic (StringReader.get_u24l advance)
        /\ failure_atomic (StringReader.get_s24b advance)
        /\ failure_atomic (StringReader.get_s24l advance)
        /\ failure_atomic (StringReader.get_u48b advance)
        /\ failure_atomic (StringReader.get_u48l advance)
        /\ failure_atomic (StringReader.get_s48b advance)
        /\ failure_atomic (StringReader.get_s48l advance)).
Proof.
  split; [|split].
  - intros. apply failure_atomic_read_then_advance.
  - intros. apply failure_atomic_read_then_advance.
  - intros advance.
    repeat split;
      first [ apply failure_atomic_read_then_advance
            | apply failure_atomic_fmap, failure_atomic_read_then_advance ].
Qed.

(** Witness of C2: reading three bytes one byte before the end throws and
    leaves the reader where it was. *)
Lemma failed_get_leaves_reader_unchanged_witness :
  let r := StringReader.of_string [Byte.x01; Byte.x02; Byte.x03] 1 in
  (StringReader.getv 3 true r).1 = Throws (out_of_range "end of string")
  /\ (StringReader.getv 3 true r).2 = r.
Proof.
  cbv zeta. split; [reflexivity|].
  apply (proj1 failed_get_leaves_reader_unchanged 3 true
           (StringReader.of_string [Byte.x01; Byte.x02; Byte.x03] 1)
           (out_of_range "end of string")).
  reflexivity.
Defined.

(** ** StringReader: 24-bit and 48-bit reads *)

Lemma lor_add_disjoint a b k :
  0 <= k -> a mod 2 ^ k = 0 -> 0 <= b < 2 ^ k -> Z.lor a b = a + b.
Proof.
  intros Hk Ha Hb.
  rewrite <- (Z.add_lor_land a b).
  enough (Z.land a b = 0) by lia.
  apply Z.bits_inj'. intros n Hn.
  rewrite Z.land_spec, Z.bits_0.
  destruct (Z.lt_ge_cases n k) as [Hlt|Hge].
  - replace (Z.testbit a n) with false; [reflexivity|].
    symmetry. apply Z.mod_divide in Ha; [|apply Z.pow_nonzero; lia].
    destruct Ha as [q ->]. apply Z.mul_pow2_bits_low. assumption.
  - replace (Z.testbit b n) with false; [apply andb_false_r|].
    symmetry. destruct (Z.eq_dec b 0) as [->|Hb0]; [apply Z.bits_0|].
    apply Z.bits_above_log2; [lia|].
    apply Z.log2_lt_pow2; [lia|].
    apply Z.lt_le_trans with (2 ^ k); [lia|].
    apply Z.pow_le_mono_r; lia.
Qed.

Lemma lor_add_disjoint_l a b k :
  0 <= k -> a mod 2 ^ k = 0 -> 0 <= b < 2 ^ k -> Z.lor b a = b + a.
Proof.
  intros. rewrite Z.lor_comm, Z.add_comm. eapply lor_add_disjoint; eassumption.
Qed.

Lemma shl64_byte x k :
  0 <= x < 256 -> 0 <= k <= 56 -> StringReader.shl64 x k = x * 2 ^ k.
Proof.
  intros Hx Hk. unfold StringReader.shl64, to_unsigned.
  rewrite Z.shiftl_mul_pow2 by lia.
  apply Z.mod_small. split; [nia|].
  apply Z.lt_le_trans with (256 * 2 ^ k).
  - apply Z.mul_lt_mono_pos_r; [apply Z.pow_pos_nonneg|]; lia.
  - change 256 with (2 ^ 8). rewrite <- Z.pow_add_r by lia.
    apply Z.pow_le_mono_r; lia.
Qed.

Lemma u24b_assemble x0 x1 x2 :
  0 <= x0 < 256 -> 0 <= x1 < 256 -> 0 <= x2 < 256 ->
  to_unsigned 32 (Z.lor (Z.lor (Z.shiftl x0 16) (Z.shiftl x1 8)) x2)
  = x0 * 65536 + x1 * 256 + x2.
Proof.
  intros H0 H1 H2. unfold to_unsigned.
  rewrite !Z.shiftl_mul_pow2 by lia.
  change (2 ^ 16) with 65536. change (2 ^ 8) with 256.
  change (2 ^ 32) with 4294967296.
  rewrite (lor_add_disjoint (x0 * 65536) (x1 * 256) 16)
    by (change (2 ^ 16) with 65536; Z.div_mod_to_equations; lia).
  rewrite (lor_add_disjoint _ x2 8) by (change (2 ^ 8) with 256; Z.div_mod_to_equations; lia).
  apply Z.mod_small. lia.
Qed.

Lemma u24l_assemble x0 x1 x2 :
  0 <= x0 < 256 -> 0 <= x1 < 256 -> 0 <= x2 < 256 ->
  to_unsigned 32 (Z.lor (Z.lor x0 (Z.shiftl x1 8)) (Z.shiftl x2 16))
  = x0 + 256 * (x1 + 256 * x2).
Proof.
  intros H0 H1 H2. unfold to_unsigned.
  rewrite !Z.shiftl_mul_pow2 by lia.
  change (2 ^ 16) with 65536. change (2 ^ 8) with 256.
  change (2 ^ 32) with 4294967296.
  rewrite (lor_add_disjoint_l (x1 * 256) x0 8)
    by (change (2 ^ 8) with 256; Z.div_mod_to_equations; lia).
  rewrite (lor_add_disjoint_l (x2 * 65536) _ 16)
    by (change (2 ^ 16) with 65536; Z.div_mod_to_equations; lia).
  rewrite Z.mod_small; lia.
Qed.

Lemma u48b_assemble x0 x1 x2 x3 x4 x5 :
  0 <= x0 < 256 -> 0 <= x1 < 256 -> 0 <= x2 < 256 ->
  0 <= x3 < 256 -> 0 <= x4 < 256 -> 0 <= x5 < 256 ->
  Z.lor (Z.lor (Z.lor (Z.lor (Z.lor
    (StringReader.shl64 x0 40) (StringReader.shl64 x1 32))
    (StringReader.shl64 x2 24)) (StringReader.shl64 x3 16))
    (StringReader.shl64 x4 8)) x5
  = ((((x0 * 256 + x1) * 256 + x2) * 256 + x3) * 256 + x4) * 256 + x5.
Proof.
  intros H0 H1 H2 H3 H4 H5.
  rewrite !shl64_byte by lia.
  change (2 ^ 40) with 1099511627776. change (2 ^ 32) with 4294967296.
  change (2 ^ 24) with 16777216. change (2 ^ 16) with 65536.
  change (2 ^ 8) with 256.
  rewrite (lor_add_disjoint (x0 * _) (x1 * _) 40)
    by (change (2 ^ 40) with 1099511627776; Z.div_mod_to_equations; lia).
  rewrite (lor_add_disjoint _ (x2 * _) 32)
    by (change (2 ^ 32) with 4294967296; Z.div_mod_to_equations; lia).
  rewrite (lor_add_disjoint _ (x3 * _) 24)
    by (change (2 ^ 24) with 16777216; Z.div_mod_to_equations; lia).
  rewrite (lor_add_disjoint _ (x4 * _) 16)
    by (change (2 ^ 16) with 65536; Z.div_mod_to_equations; lia).
  rewrite (lor_add_disjoint _ x5 8) by (change (2 ^ 8) with 256; Z.div_mod_to_equations; lia).
  lia.
Qed.

Lemma u48l_assemble x0 x1 x2 x3 x4 x5 :
  0 <= x0 < 256 -> 0 <= x1 < 256 -> 0 <= x2 < 256 ->
  0 <= x3 < 256 -> 0 <= x4 < 256 -> 0 <= x5 < 256 ->
  Z.lor (Z.lor (Z.lor (Z.lor (Z.lor
    x0 (StringReader.shl64 x1 8)) (StringReader.shl64 x2 16))
    (StringReader.shl64 x3 24)) (StringReader.shl64 x4 32))
    (StringReader.shl64 x5 40)
  = x0 + 256 * (x1 + 256 * (x2 + 256 * (x3 + 256 * (x4 + 256 * x5)))).
Proof.
  intros H0 H1 H2 H3 H4 H5.
  rewrite !shl64_byte by lia.
  change (2 ^ 40) with 1099511627776. change (2 ^ 32) with 4294967296.
  change (2 ^ 24) with 16777216. change (2 ^ 16) with 65536.
  change (2 ^ 8) with 256.
  rewrite (lor_add_disjoint_l (x1 * _) x0 8)
    by (change (2 ^ 8) with 256; Z.div_mod_to_equations; lia).
  rewrite (lor_add_disjoint_l (x2 * _) _ 16)
    by (change (2 ^ 16) with 65536; Z.div_mod_to_equations; lia).
  rewrite (lor_add_disjoint_l (x3 * _) _ 24)
    by (change (2 ^ 24) with 16777216; Z.div_mod_to_equations; lia).
  rewrite (lor_add_disjoint_l (x4 * _) _ 32)
    by (change (2 ^ 32) with 4294967296; Z.div_mod_to_equations; lia).
  rewrite (lor_add_disjoint_l (x5 * _) _ 40)
    by (change (2 ^ 40) with 1099511627776; Z.div_mod_to_equations; lia).
  lia.
Qed.

Lemma testbit_top_of_narrow u k :
  0 <= k -> 0 <= u < 2 ^ (k + 1) -> Z.testbit u k = (2 ^ k <=? u).
Proof.
  intros Hk Hu.
  rewrite Z.pow_add_r, Z.pow_1_r in Hu by lia.
  pose proof (Z.pow_pos_nonneg 2 k ltac:(lia) Hk) as Hpos.
  rewrite Z.testbit_eqb by assumption.
  destruct (Z.leb_spec (2 ^ k) u) as [Hle|Hlt].
  - assert (u / 2 ^ k = 1) as ->; [|reflexivity].
    symmetry. apply (Z.div_unique u (2 ^ k) 1 (u - 2 ^ k)); lia.
  - rewrite Z.div_small by lia. reflexivity.
Qed.

Lemma ext24_twos_complement u :
  0 <= u < 2 ^ 24 -> ext24 u = twos_complement 24 u.
Proof.
  intros Hu. unfold ext24, twos_complement.
  rewrite (testbit_top_of_narrow u 23) by (simpl; lia).
  change (24 - 1) with 23. change (2 ^ 23) with 8388608 in *.
  change (2 ^ 24) with 16777216 in *.
  destruct (Z.leb_spec 8388608 u) as [Hle|Hlt];
    destruct (Z.ltb_spec u 8388608) as [Hlt'|Hge']; try lia.
  - rewrite (lor_add_disjoint_l 0xFF000000 u 24)
      by (change (2 ^ 24) with 16777216; Z.div_mod_to_equations; lia).
    unfold to_signed. change (2 ^ (32 - 1)) with 2147483648.
    change (2 ^ 32) with 4294967296. Z.div_mod_to_equations. lia.
  - unfold to_signed. change (2 ^ (32 - 1)) with 2147483648.
    change (2 ^ 32) with 4294967296. Z.div_mod_to_equations. lia.
Qed.

Lemma ext48_twos_complement u :
  0 <= u < 2 ^ 48 -> ext48 u = twos_complement 48 u.
Proof.
  intros Hu. unfold ext48, twos_complement.
  rewrite (testbit_top_of_narrow u 47) by (simpl; lia).
  change (48 - 1) with 47. change (2 ^ 47) with 140737488355328 in *.
  change (2 ^ 48) with 281474976710656 in *.
  destruct (Z.leb_spec 140737488355328 u) as [Hle|Hlt];
    destruct (Z.ltb_spec u 140737488355328) as [Hlt'|Hge']; try lia.
  - rewrite (lor_add_disjoint_l 0xFFFF000000000000 u 48)
      by (change (2 ^ 48) with 281474976710656; Z.div_mod_to_equations; lia).
    unfold to_signed. change (2 ^ (64 - 1)) with 9223372036854775808.
    change (2 ^ 64) with 18446744073709551616. Z.div_mod_to_equations. lia.
  - unfold to_signed. change (2 ^ (64 - 1)) with 9223372036854775808.
    change (2 ^ 64) with 18446744073709551616. Z.div_mod_to_equations. lia.
Qed.

(** In two's complement the [bits]-bit pattern [u] and the number it denotes
    agree modulo [2^bits], and the number fits the signed range. *)
Lemma twos_complement_spec bits u :
  0 < bits -> 0 <= u < 2 ^ bits ->
  - 2 ^ (bits - 1) <= twos_complement bits u < 2 ^ (bits - 1)
  /\ twos_complement bits u mod 2 ^ bits = u.
Proof.
  intros Hb Hu. unfold twos_complement.
  assert (2 ^ bits = 2 * 2 ^ (bits - 1)) as E.
  { rewrite <- Z.pow_succ_r by lia. f_equal. lia. }
  destruct (Z.ltb_spec u (2 ^ (bits - 1))).
  - split; [lia|]. apply Z.mod_small. lia.
  - split; [lia|].
    symmetry. apply (Z.mod_unique _ _ (-1)); lia.
Qed.

Lemma fmap_Returns {A B} (h : A -> B) (v : A) :
  h <$> Returns v = Returns (h v).
Proof. reflexivity. Qed.

Lemma load_u8_at (r : StringReader.t) (offset : Z) (i : nat) :
  StringReader.wf r -> 0 <= offset ->
  offset + Z.of_nat i < StringReader.length r ->
  exists b,
    StringReader.data r !! (Z.to_nat offset + i)%nat = Some b
    /\ load_u8 (StringReader.data r) (size_add offset (Z.of_nat i))
       = Returns (byte.unsigned b).
Proof.
  intros (Hlen & Hmax & _) Ho Hi.
  rewrite size_add_nowrap by lia.
  destruct (load_u8_in_bounds (StringReader.data r) (offset + Z.of_nat i))
    as (b & Hb & Hload); [lia|].
  exists b. split; [|assumption].
  rewrite <- Hb. f_equal. lia.
Qed.

Lemma cursor_read_run (f : StringReader.t -> outcome Z) (n : Z)
    (r : StringReader.t) (v : Z) :
  StringReader.wf r -> 0 <= n ->
  StringReader.offset r + n <= SIZE_MAX ->
  f r = Returns v ->
  reads_at_cursor
    (fun advance =>
       ret ← const_method f;
       when advance (modify (fun r =>
         StringReader.set_offset r (size_add (StringReader.offset r) n)));;
       mret ret) r v n.
Proof.
  intros (_ & _ & Hoff) Hn Hmax Hf advance.
  rewrite read_then_advance_run, Hf.
  unfold is_size_t in Hoff. rewrite size_add_nowrap by lia. reflexivity.
Qed.

Lemma reads_at_cursor_fmap (h : Z -> Z) (m : bool -> method StringReader.t Z)
    (r : StringReader.t) (v n : Z) :
  reads_at_cursor m r v n -> reads_at_cursor (fun a => h <$> m a) r (h v) n.
Proof.
  intros Hm advance. specialize (Hm advance).
  unfold fmap, method_FMap, mbind, method_MBind, method_bind.
  rewrite Hm. reflexivity.
Qed.

Lemma be_value_bound3 b0 b1 b2 : 0 <= be_value [b0; b1; b2] < 2 ^ 24.
Proof.
  pose proof (byte.unsigned_range b0). pose proof (byte.unsigned_range b1).
  pose proof (byte.unsigned_range b2).
  change (2 ^ 8) with 256 in *. change (2 ^ 24) with 16777216.
  unfold be_value. simpl. lia.
Qed.

Lemma be_value_bound6 b0 b1 b2 b3 b4 b5 :
  0 <= be_value [b0; b1; b2; b3; b4; b5] < 2 ^ 48.
Proof.
  pose proof (byte.unsigned_range b0). pose proof (byte.unsigned_range b1).
  pose proof (byte.unsigned_range b2). pose proof (byte.unsigned_range b3).
  pose proof (byte.unsigned_range b4). pose proof (byte.unsigned_range b5).
  change (2 ^ 8) with 256 in *. change (2 ^ 48) with 281474976710656.
  unfold be_value. simpl. lia.
Qed.

Lemma le_value_rev bs : le_value bs = be_value (rev bs).
Proof.
  unfold le_value, be_value. rewrite <- fold_left_rev_right, rev_involutive.
  induction bs as [|b bs IH]; simpl; [reflexivity|]. rewrite IH. lia.
Qed.

Lemma le_value_bound bs :
  0 <= le_value bs < 2 ^ (8 * Z.of_nat (List.length bs)).
Proof.
  induction bs as [|b bs IH]; [simpl; lia|].
  change (le_value (b :: bs)) with (byte.unsigned b + 256 * le_value bs).
  pose proof (byte.unsigned_range b) as Hb. change (2 ^ 8) with 256 in Hb.
  replace (8 * Z.of_nat (List.length (b :: bs)))
    with (8 + 8 * Z.of_nat (List.length bs)) by (simpl List.length; lia).
  rewrite Z.pow_add_r by lia. change (2 ^ 8) with 256. lia.
Qed.

Lemma be_value_bound bs :
  0 <= be_value bs < 2 ^ (8 * Z.of_nat (List.length bs)).
Proof.
  rewrite <- (rev_involutive bs) at 1 2. rewrite <- le_value_rev.
  rewrite <- (length_rev bs). apply le_value_bound.
Qed.

(** The 24-bit reads at an in-bounds offset. *)
Lemma pget_24_in_bounds (r : StringReader.t) (offset : Z) :
  StringReader.wf r -> 0 <= offset ->
  offset + 3 <= StringReader.length r ->
  let bs := bytes_at r offset 3 in
  List.length bs = 3%nat
  /\ StringReader.pget_u24b r offset = Returns (be_value bs)
  /\ StringReader.pget_u24l r offset = Returns (le_value bs)
  /\ StringReader.pget_s24b r offset
     = Returns (twos_complement 24 (be_value bs))
  /\ StringReader.pget_s24l r offset
     = Returns (twos_complement 24 (le_value bs)).
Proof.
  intros Hwf Ho Hb.
  destruct (load_u8_at r offset 0 Hwf Ho ltac:(lia)) as (b0 & Hb0 & L0).
  destruct (load_u8_at r offset 1 Hwf Ho ltac:(lia)) as (b1 & Hb1 & L1).
  destruct (load_u8_at r offset 2 Hwf Ho ltac:(lia)) as (b2 & Hb2 & L2).
  assert (size_add offset 0 = offset) as E0.
  { destruct Hwf as (? & ? & ?). rewrite size_add_nowrap by lia. lia. }
  change (Z.of_nat 0) with 0 in L0. change (Z.of_nat 1) with 1 in L1.
  change (Z.of_nat 2) with 2 in L2. rewrite E0 in L0.
  assert (bytes_at r offset 3 = [b0; b1; b2]) as Hbs.
  { unfold bytes_at.
    rewrite Nat.add_0_r in Hb0.
    rewrite (drop_S _ _ _ Hb0).
    replace (S (Z.to_nat offset)) with (Z.to_nat offset + 1)%nat by lia.
    rewrite (drop_S _ _ _ Hb1).
    replace (S (Z.to_nat offset + 1)) with (Z.to_nat offset + 2)%nat by lia.
    rewrite (drop_S _ _ _ Hb2). reflexivity. }
  cbv zeta. rewrite Hbs.
  pose proof (byte.unsigned_range b0) as R0.
  pose proof (byte.unsigned_range b1) as R1.
  pose proof (byte.unsigned_range b2) as R2.
  change (2 ^ 8) with 256 in *.
  assert (StringReader.pget_u24b r offset = Returns (be_value [b0; b1; b2]))
    as Hbe.
  { unfold StringReader.pget_u24b.
    destruct Hwf as (? & ? & ?).
    rewrite (size_add_nowrap offset 3) by lia.
    destruct (offset + 3 >? StringReader.length r) eqn:E;
      [apply Z.gtb_lt in E; lia|].
    rewrite L0, L1, L2. simpl. f_equal.
    rewrite u24b_assemble by assumption. unfold be_value. simpl. lia. }
  assert (StringReader.pget_u24l r offset = Returns (le_value [b0; b1; b2]))
    as Hle.
  { unfold StringReader.pget_u24l.
    destruct Hwf as (? & ? & ?).
    rewrite (size_add_nowrap offset 3) by lia.
    destruct (offset + 3 >? StringReader.length r) eqn:E;
      [apply Z.gtb_lt in E; lia|].
    rewrite L0, L1, L2. simpl. f_equal.
    rewrite u24l_assemble by assumption. unfold le_value. simpl. lia. }
  split; [reflexivity|]. split; [assumption|]. split; [assumption|].
  unfold StringReader.pget_s24b, StringReader.pget_s24l.
  rewrite Hbe, Hle, !fmap_Returns.
  rewrite !ext24_twos_complement;
    [ split; reflexivity
    | rewrite le_value_rev; apply be_value_bound3
    | apply be_value_bound3 ].
Qed.

(** The 48-bit reads at an in-bounds offset. *)
Lemma pget_48_in_bounds (r : StringReader.t) (offset : Z) :
  StringReader.wf r -> 0 <= offset ->
  offset + 6 <= StringReader.length r ->
  let bs := bytes_at r offset 6 in
  List.length bs = 6%nat
  /\ StringReader.pget_u48b r offset = Returns (be_value bs)
  /\ StringReader.pget_u48l r offset = Returns (le_value bs)
  /\ StringReader.pget_s48b r offset
     = Returns (twos_complement 48 (be_value bs))
  /\ StringReader.pget_s48l r offset
     = Returns (twos_complement 48 (le_value bs)).
Proof.
  intros Hwf Ho Hb.
  destruct (load_u8_at r offset 0 Hwf Ho ltac:(lia)) as (b0 & Hb0 & L0).
  destruct (load_u8_at r offset 1 Hwf Ho ltac:(lia)) as (b1 & Hb1 & L1).
  destruct (load_u8_at r offset 2 Hwf Ho ltac:(lia)) as (b2 & Hb2 & L2).
  destruct (load_u8_at r offset 3 Hwf Ho ltac:(lia)) as (b3 & Hb3 & L3).
  destruct (load_u8_at r offset 4 Hwf Ho ltac:(lia)) as (b4 & Hb4 & L4).
  destruct (load_u8_at r offset 5 Hwf Ho ltac:(lia)) as (b5 & Hb5 & L5).
  assert (size_add offset 0 = offset) as E0.
  { destruct Hwf as (? & ? & ?). rewrite size_add_nowrap by lia. lia. }
  change (Z.of_nat 0) with 0 in L0. change (Z.of_nat 1) with 1 in L1.
  change (Z.of_nat 2) with 2 in L2. change (Z.of_nat 3) with 3 in L3.
  change (Z.of_nat 4) with 4 in L4. change (Z.of_nat 5) with 5 in L5.
  rewrite E0 in L0.
  assert (bytes_at r offset 6 = [b0; b1; b2; b3; b4; b5]) as Hbs.
  { unfold bytes_at.
    rewrite Nat.add_0_r in Hb0.
    rewrite (drop_S _ _ _ Hb0).
    replace (S (Z.to_nat offset)) with (Z.to_nat offset + 1)%nat by lia.
    rewrite (drop_S _ _ _ Hb1).
    replace (S (Z.to_nat offset + 1)) with (Z.to_nat offset + 2)%nat by lia.
    rewrite (drop_S _ _ _ Hb2).
    replace (S (Z.to_nat offset + 2)) with (Z.to_nat offset + 3)%nat by lia.
    rewrite (drop_S _ _ _ Hb3).
    replace (S (Z.to_nat offset + 3)) with (Z.to_nat offset + 4)%nat by lia.
    rewrite (drop_S _ _ _ Hb4).
    replace (S (Z.to_nat offset + 4)) with (Z.to_nat offset + 5)%nat by lia.
    rewrite (drop_S _ _ _ Hb5). reflexivity. }
  cbv zeta. rewrite Hbs.
  pose proof (byte.unsigned_range b0) as R0.
  pose proof (byte.unsigned_range b1) as R1.
  pose proof (byte.unsigned_range b2) as R2.
  pose proof (byte.unsigned_range b3) as R3.
  pose proof (byte.unsigned_range b4) as R4.
  pose proof (byte.unsigned_range b5) as R5.
  change (2 ^ 8) with 256 in *.
  assert (StringReader.pget_u48b r offset
          = Returns (be_value [b0; b1; b2; b3; b4; b5])) as Hbe.
  { unfold StringReader.pget_u48b.
    destruct Hwf as (? & ? & ?).
    rewrite (size_add_nowrap offset 6) by lia.
    destruct (offset + 6 >? StringReader.length r) eqn:E;
      [apply Z.gtb_lt in E; lia|].
    rewrite L0, L1, L2, L3, L4, L5. simpl. f_equal.
    rewrite u48b_assemble by assumption. unfold be_value. simpl. lia. }
  assert (StringReader.pget_u48l r offset
          = Returns (le_value [b0; b1; b2; b3; b4; b5])) as Hle.
  { unfold StringReader.pget_u48l.
    destruct Hwf as (? & ? & ?).
    rewrite (size_add_nowrap offset 6) by lia.
    destruct (offset + 6 >? StringReader.length r) eqn:E;
      [apply Z.gtb_lt in E; lia|].
    rewrite L0, L1, L2, L3, L4, L5. simpl. f_equal.
    rewrite u48l_assemble by assumption. unfold le_value. simpl. lia. }
  split; [reflexivity|]. split; [assumption|]. split; [assumption|].
  unfold StringReader.pget_s48b, StringReader.pget_s48l.
  rewrite Hbe, Hle, !fmap_Returns.
  rewrite !ext48_twos_complement;
    [ split; reflexivity
    | rewrite le_value_rev; apply be_value_bound6
    | apply be_value_bound6 ].
Qed.

(** C3. At an in-bounds offset the 24-bit and 48-bit reads return the value
    of the three (six) bytes at that offset, first byte most significant for
    the [b] accessors and least significant for the [l] accessors; the
    signed accessors return the number that this bit pattern denotes in
    two's complement, which is how the narrow value is carried to [int32_t]
    and [int64_t] unchanged. The cursor forms read at the cursor and, when
    advancing, move it by three (six). *)
Theorem narrow_reads_assemble_and_sign_extend
    (r : StringReader.t) (offset : Z) :
  StringReader.wf r -> 0 <= offset ->
  (offset + 3 <= StringReader.length r ->
   let bs := bytes_at r offset 3 in
   List.length bs = 3%nat
   /\ StringReader.pget_u24b r offset = Returns (be_value bs)
   /\ StringReader.pget_u24l r offset = Returns (le_value bs)
   /\ StringReader.pget_s24b r offset
      = Returns (twos_complement 24 (be_value bs))
   /\ StringReader.pget_s24l r offset
      = Returns (twos_complement 24 (le_value bs))
   /\ (StringReader.offset r = offset ->
       reads_at_cursor StringReader.get_u24b r (be_value bs) 3
       /\ reads_at_cursor StringReader.get_u24l r (le_value bs) 3
       /\ reads_at_cursor StringReader.get_s24b r
            (twos_complement 24 (be_value bs)) 3
       /\ reads_at_cursor StringReader.get_s24l r
            (twos_complement 24 (le_value bs)) 3))
  /\ (offset + 6 <= StringReader.length r ->
      let bs := bytes_at r offset 6 in
      List.length bs = 6%nat
      /\ StringReader.pget_u48b r offset = Returns (be_value bs)
      /\ StringReader.pget_u48l r offset = Returns (le_value bs)
      /\ StringReader.pget_s48b r offset
         = Returns (twos_complement 48 (be_value bs))
      /\ StringReader.pget_s48l r offset
         = Returns (twos_complement 48 (le_value bs))
      /\ (StringReader.offset r = offset ->
          reads_at_cursor StringReader.get_u48b r (be_value bs) 6
          /\ reads_at_cursor StringReader.get_u48l r (le_value bs) 6
          /\ reads_at_cursor StringReader.get_s48b r
               (twos_complement 48 (be_value bs)) 6
          /\ reads_at_cursor StringReader.get_s48l r
               (twos_complement 48 (le_value bs)) 6)).
Proof.
  intros Hwf Ho. split; intros Hb.
  - destruct (pget_24_in_bounds r offset Hwf Ho Hb) as (Hl & Hbe & Hle & Hsb & Hsl).
    cbv zeta in *. repeat (split; [assumption|]).
    intros <-.
    assert (StringReader.offset r + 3 <= SIZE_MAX) as Hmax
      by (destruct Hwf as (? & ? & ?); lia).
    pose proof (cursor_read_run
      (fun r => StringReader.pget_u24b r (StringReader.offset r)) 3 r _
      Hwf ltac:(lia) Hmax Hbe) as Cb.
    pose proof (cursor_read_run
      (fun r => StringReader.pget_u24l r (StringReader.offset r)) 3 r _
      Hwf ltac:(lia) Hmax Hle) as Cl.
    split; [exact Cb|]. split; [exact Cl|].
    pose proof (be_value_bound (bytes_at r (StringReader.offset r) 3)) as Bb.
    pose proof (le_value_bound (bytes_at r (StringReader.offset r) 3)) as Bl.
    rewrite Hl in Bb, Bl.
    pose proof (reads_at_cursor_fmap ext24 StringReader.get_u24b _ _ _ Cb) as Sb.
    pose proof (reads_at_cursor_fmap ext24 StringReader.get_u24l _ _ _ Cl) as Sl.
    rewrite ext24_twos_complement in Sb, Sl by assumption.
    split; [exact Sb | exact Sl].
  - destruct (pget_48_in_bounds r offset Hwf Ho Hb) as (Hl & Hbe & Hle & Hsb & Hsl).
    cbv zeta in *. repeat (split; [assumption|]).
    intros <-.
    assert (StringReader.offset r + 6 <= SIZE_MAX) as Hmax
      by (destruct Hwf as (? & ? & ?); lia).
    pose proof (cursor_read_run
      (fun r => StringReader.pget_u48b r (StringReader.offset r)) 6 r _
      Hwf ltac:(lia) Hmax Hbe) as Cb.
    pose proof (cursor_read_run
      (fun r => StringReader.pget_u48l r (StringReader.offset r)) 6 r _
      Hwf ltac:(lia) Hmax Hle) as Cl.
    split; [exact Cb|]. split; [exact Cl|].
    pose proof (be_value_bound (bytes_at r (StringReader.offset r) 6)) as Bb.
    pose proof (le_value_bound (bytes_at r (StringReader.offset r) 6)) as Bl.
    rewrite Hl in Bb, Bl.
    pose proof (reads_at_cursor_fmap ext48 StringReader.get_u48b _ _ _ Cb) as Sb.
    pose proof (reads_at_cursor_fmap ext48 StringReader.get_u48l _ _ _ Cl) as Sl.
    rewrite ext48_twos_complement in Sb, Sl by assumption.
    split; [exact Sb | exact Sl].
Qed.

(** Witness of C3: a seven-byte reader, read at offset 0 and at offset 1. *)
Lemma narrow_reads_assemble_and_sign_extend_witness :
  let r := StringReader.of_string
             [Byte.xff; Byte.xff; Byte.xfe; Byte.x01; Byte.x00; Byte.x00;
              Byte.x80] 0 in
  StringReader.pget_s24b r 0 = Returns (-2)
  /\ StringReader.pget_u24l r 0 = Returns 0xFEFFFF
  /\ StringReader.pget_s48l r 1 = Returns (-0x7FFFFFFE0101)
  /\ StringReader.get_u48b true r
     = (Returns 0xFFFFFE010000, StringReader.set_offset r 6).
Proof.
  intros r.
  assert (StringReader.wf r) as Hwf.
  { unfold StringReader.wf, is_size_t, SIZE_MAX. simpl. lia. }
  destruct (narrow_reads_assemble_and_sign_extend r 0 Hwf ltac:(lia))
    as [H24 H48].
  destruct (narrow_reads_assemble_and_sign_extend r 1 Hwf ltac:(lia))
    as [_ H48'].
  destruct (H24 ltac:(simpl; lia)) as (_ & _ & Hl & Hs & _).
  destruct (H48 ltac:(simpl; lia)) as (_ & _ & _ & _ & _ & Hc).
  destruct (H48' ltac:(simpl; lia)) as (_ & _ & _ & _ & Hsl & _).
  destruct (Hc eq_refl) as (Hcb & _).
  split; [exact Hs|]. split; [exact Hl|]. split; [exact Hsl|].
  exact (Hcb true).
Defined.

(** ** StringReader: positional reads *)

Lemma pread_run (r : StringReader.t) (offset size : Z) :
  0 <= offset -> 0 <= size -> offset + size <= StringReader.length r ->
  StringReader.pread offset size r = (Returns (bytes_at r offset size), r).
Proof.
  intros Ho Hs Hb. unfold StringReader.pread, const_method, bytes_at.
  do 2 f_equal.
  rewrite !take_drop_commute, take_take. do 2 f_equal. lia.
Qed.

Lemma call_times_const {S A} (m : method S A) (s : S) (a : A) (n : nat) :
  m s = (Returns a, s) -> call_times n m s = (Returns (replicate n a), s).
Proof.
  intros Hm. induction n as [|n IH]; [reflexivity|].
  simpl. unfold mbind, method_MBind, method_bind in *.
  rewrite Hm, IH. reflexivity.
Qed.

(** C7. For a span inside the reader, [pread] returns the bytes of the
    span, however often it is called, and the reader, its cursor included,
    is afterwards what it was; [pgetv] on the same span returns the pointer
    to it. *)
Theorem pread_idempotent (r : StringReader.t) (offset size : Z) (n : nat) :
  StringReader.wf r -> 0 <= offset -> 0 <= size ->
  offset + size <= StringReader.length r ->
  call_times n (StringReader.pread offset size) r
  = (Returns (replicate n (bytes_at r offset size)), r)
  /\ Z.of_nat (List.length (bytes_at r offset size)) = size
  /\ StringReader.where_ (call_times n (StringReader.pread offset size) r).2
     = StringReader.where_ r
  /\ StringReader.pgetv r offset size = Returns offset.
Proof.
  intros (Hlen & Hmax & Hoff) Ho Hs Hb.
  pose proof (call_times_const _ r _ n (pread_run r offset size Ho Hs Hb)) as E.
  split; [exact E|]. split; [|split].
  - unfold bytes_at. rewrite length_take, length_drop. lia.
  - rewrite E. reflexivity.
  - apply pgetv_in_bounds; lia.
Qed.

(** Witness of C7: three reads of two bytes from a four-byte reader whose
    cursor is at 3. *)
Lemma pread_idempotent_witness :
  let r := StringReader.of_string
             [Byte.x0a; Byte.x0b; Byte.x0c; Byte.x0d] 3 in
  call_times 3 (StringReader.pread 1 2) r
  = (Returns (replicate 3 [Byte.x0b; Byte.x0c]), r).
Proof.
  intros r.
  refine (proj1 (pread_idempotent r 1 2 3 _ _ _ _)).
  - unfold StringReader.wf, is_size_t, SIZE_MAX. simpl. lia.
  - lia.
  - lia.
  - simpl. lia.
Defined.

(** ** StringWriter: positional writes *)

Section StringWriterFacts.

Variable max_size : Z.

Lemma on_contents_run (f : list byte -> outcome (list byte))
    (w : StringWriter.t) :
  StringWriter.on_contents f w
  = match f (StringWriter.contents w) with
    | Returns s => (Returns tt, {| StringWriter.contents := s |})
    | Throws e => (Throws e, w)
    | Undefined => (Undefined, w)
    end.
Proof.
  unfold StringWriter.on_contents, update.
  destruct (f (StringWriter.contents w)); reflexivity.
Qed.

Lemma memcpy_in_bounds (buf src : list byte) (p n : Z) :
  Z.of_nat (List.length src) = n ->
  0 <= p -> p + n <= Z.of_nat (List.length buf) ->
  memcpy buf p src n
  = Returns (take (Z.to_nat p) buf ++ src ++ drop (Z.to_nat (p + n)) buf).
Proof.
  intros <- Hp Hb. unfold memcpy.
  rewrite (proj2 (Z.leb_le 0 p)) by assumption.
  rewrite (proj2 (Z.leb_le 0 _)) by lia.
  rewrite (proj2 (Z.leb_le _ _) Hb).
  rewrite Z.leb_refl. simpl.
  rewrite Nat2Z.id, firstn_all. reflexivity.
Qed.


(** A positional write that lies inside the contents. *)
Lemma pput_inside {V} (T : ctype V) (w : StringWriter.t) (offset : Z) (v : V) :
  StringWriter.wf max_size w -> ctype_ok T v -> 0 <= offset ->
  offset + sizeof T <= StringWriter.size w ->
  StringWriter.pput max_size T offset v w
  = (Returns tt,
     {| StringWriter.contents :=
          take (Z.to_nat offset) (StringWriter.contents w)
          ++ to_bytes T v
          ++ drop (Z.to_nat (offset + sizeof T)) (StringWriter.contents w) |}).
Proof.
  intros (Hsz & Hmax) Hok Ho Hb. unfold ctype_ok in Hok.
  unfold StringWriter.size in *.
  unfold StringWriter.pput, mbind, method_MBind, method_bind, this.
  rewrite size_add_nowrap by lia.
  unfold StringWriter.size.
  destruct (offset + sizeof T >? _) eqn:E; [apply Z.gtb_lt in E; lia|].
  unfold mret, method_MRet, method_ret.
  rewrite on_contents_run, (memcpy_in_bounds _ _ _ _ Hok) by lia.
  reflexivity.
Qed.

(** A positional write that ends past the contents and fits the string. *)
Lemma pput_grows {V} (T : ctype V) (w : StringWriter.t) (offset : Z) (v : V) :
  StringWriter.wf max_size w -> ctype_ok T v -> 0 <= offset ->
  StringWriter.size w < offset + sizeof T ->
  offset + sizeof T <= max_size ->
  StringWriter.pput max_size T offset v w
  = (Returns tt,
     {| StringWriter.contents :=
          take (Z.to_nat offset) (StringWriter.contents w)
          ++ replicate (Z.to_nat (offset - StringWriter.size w)) Byte.x00
          ++ to_bytes T v |}).
Proof.
  intros (Hsz & Hmax) Hok Ho Hb Hfit. unfold ctype_ok in Hok.
  unfold StringWriter.size in *.
  unfold StringWriter.pput, mbind, method_MBind, method_bind, this.
  rewrite size_add_nowrap by lia.
  unfold StringWriter.size.
  destruct (offset + sizeof T >? _) eqn:E;
    [|rewrite Z.gtb_ltb in E; apply Z.ltb_ge in E; lia].
  rewrite on_contents_run. unfold StringWriter.string_resize.
  destruct (offset + sizeof T >? max_size) eqn:E';
    [apply Z.gtb_lt in E'; lia|].
  cbn [StringWriter.contents].
  rewrite on_contents_run. cbn [StringWriter.contents].
  rewrite take_ge by lia.
  rewrite (memcpy_in_bounds _ _ _ _ Hok);
    [|lia|rewrite length_app, length_replicate; lia].
  do 2 f_equal.
  rewrite drop_ge by (rewrite length_app, length_replicate; lia).
  rewrite app_nil_r, (app_assoc (take _ _)). f_equal.
  destruct (Z.le_gt_cases offset
              (Z.of_nat (List.length (StringWriter.contents w))))
    as [Hle|Hgt].
  - rewrite take_app_le by lia.
    replace (Z.to_nat (offset - _)) with 0%nat by lia.
    rewrite app_nil_r. reflexivity.
  - rewrite take_app_ge by lia. rewrite take_replicate.
    rewrite (take_ge (StringWriter.contents w)) by lia.
    do 2 f_equal. lia.
Qed.

(** A positional write that ends past what the string can hold, without
    wrapping [size_t]: [resize] throws and nothing is written. *)
Lemma pput_too_long {V} (T : ctype V) (w : StringWriter.t) (offset : Z) (v : V) :
  StringWriter.wf max_size w -> ctype_ok T v -> 0 <= offset ->
  max_size < offset + sizeof T -> offset + sizeof T <= SIZE_MAX ->
  StringWriter.pput max_size T offset v w = (Throws length_error, w).
Proof.
  intros (Hsz & Hmax) Hok Ho Hlong Hwrap. unfold ctype_ok in Hok.
  unfold StringWriter.size in *.
  unfold StringWriter.pput, mbind, method_MBind, method_bind, this.
  rewrite size_add_nowrap by lia.
  unfold StringWriter.size.
  destruct (offset + sizeof T >? _) eqn:E;
    [|rewrite Z.gtb_ltb in E; apply Z.ltb_ge in E; lia].
  rewrite on_contents_run. unfold StringWriter.string_resize.
  destruct (offset + sizeof T >? max_size) eqn:E'; [reflexivity|].
  rewrite Z.gtb_ltb in E'. apply Z.ltb_ge in E'. lia.
Qed.

(** C4, amended. A positional write at an offset past the end, ending
    within what a string can hold ([offset + sizeof(T) <= max_size()]),
    returns; afterwards the size is [offset + sizeof(T)], the bytes from the
    old size up to [offset] are zero, the representation of [v] is at
    [offset], and the old contents are in front. *)
Theorem pput_past_end_zero_fills {V} (T : ctype V) (w : StringWriter.t)
    (offset : Z) (v : V) :
  StringWriter.wf max_size w -> ctype_ok T v ->
  StringWriter.size w < offset -> offset + sizeof T <= max_size ->
  exists w',
    StringWriter.pput max_size T offset v w = (Returns tt, w')
    /\ StringWriter.size w' = offset + sizeof T
    /\ (forall i : nat,
          StringWriter.size w <= Z.of_nat i < offset ->
          StringWriter.contents w' !! i = Some Byte.x00)
    /\ take (Z.to_nat (sizeof T))
         (drop (Z.to_nat offset) (StringWriter.contents w'))
       = to_bytes T v
    /\ take (Z.to_nat (StringWriter.size w)) (StringWriter.contents w')
       = StringWriter.contents w.
Proof.
  intros Hwf Hok Hpast Hfit.
  assert (0 <= sizeof T) as Hsz by (unfold ctype_ok in Hok; lia).
  assert (0 <= StringWriter.size w) as Hsz0 by (unfold StringWriter.size; lia).
  eexists. split.
  { apply pput_grows; [assumption|assumption|lia|lia|assumption]. }
  unfold StringWriter.size in *. cbn [StringWriter.contents].
  rewrite (take_ge (StringWriter.contents w)) by lia.
  unfold ctype_ok in Hok.
  split; [|split; [|split]].
  - rewrite !length_app, length_replicate. lia.
  - intros i Hi.
    rewrite lookup_app_r by lia. rewrite lookup_app_l
      by (rewrite length_replicate; lia).
    apply lookup_replicate_2. lia.
  - rewrite app_assoc, drop_app_length'
      by (rewrite length_app, length_replicate; lia).
    apply take_ge. lia.
  - rewrite Nat2Z.id, take_app_length. reflexivity.
Qed.

(** The frame of a positional write whose end [offset + sizeof(T)] does not
    wrap [size_t]. Inside the contents the write returns, keeps the size and
    changes no byte outside its window. Ending past the contents, it returns
    or throws, and the bytes of the old contents below [offset] are what
    they were. *)
Lemma pput_frame {V} (T : ctype V) (w : StringWriter.t) (offset : Z) (v : V) :
  StringWriter.wf max_size w -> ctype_ok T v -> 0 <= offset ->
  offset + sizeof T <= SIZE_MAX ->
  let r := StringWriter.pput max_size T offset v w in
  (offset + sizeof T <= StringWriter.size w ->
   r.1 = Returns tt
   /\ StringWriter.size r.2 = StringWriter.size w
   /\ forall i : nat,
        Z.of_nat i < offset \/ offset + sizeof T <= Z.of_nat i ->
        StringWriter.contents r.2 !! i = StringWriter.contents w !! i)
  /\ (StringWriter.size w < offset + sizeof T ->
      r.1 <> Undefined
      /\ forall i : nat,
           Z.of_nat i < offset ->
           (i < List.length (StringWriter.contents w))%nat ->
           StringWriter.contents r.2 !! i = StringWriter.contents w !! i).
Proof.
  intros Hwf Hok Ho Hwrap r. subst r.
  assert (0 <= sizeof T) as Hsz by (unfold ctype_ok in Hok; lia).
  split.
  - intros Hin. rewrite pput_inside by assumption.
    unfold StringWriter.size in *. unfold ctype_ok in Hok.
    cbn [fst snd StringWriter.contents].
    split; [reflexivity|]. split.
    + rewrite !length_app, length_take, length_drop. lia.
    + intros i [Hi|Hi].
      * rewrite lookup_app_l by (rewrite length_take; lia).
        apply lookup_take_lt. lia.
      * rewrite lookup_app_r by (rewrite length_take; lia).
        rewrite lookup_app_r by (rewrite length_take; lia).
        rewrite lookup_drop. f_equal. rewrite length_take. lia.
  - intros Hout.
    destruct (Z.le_gt_cases (offset + sizeof T) max_size) as [Hfit|Hlong].
    + rewrite pput_grows by assumption.
      cbn [fst snd StringWriter.contents].
      split; [discriminate|].
      intros i Hi Hlen.
      rewrite lookup_app_l by (rewrite length_take; lia).
      apply lookup_take_lt. lia.
    + rewrite pput_too_long by assumption.
      cbn [fst snd]. split; [discriminate|]. reflexivity.
Qed.

End StringWriterFacts.

(** Witness of C4: two bytes written at offset 3 of a one-byte string. *)
Lemma pput_past_end_zero_fills_witness :
  exists w',
    StringWriter.pput (2 ^ 63 - 1) be_uint16_t 3 0x1234
      {| StringWriter.contents := [Byte.x07] |} = (Returns tt, w')
    /\ StringWriter.size w' = 5
    /\ StringWriter.contents w' !! 1%nat = Some Byte.x00
    /\ StringWriter.contents w' !! 2%nat = Some Byte.x00.
Proof.
  destruct (pput_past_end_zero_fills (2 ^ 63 - 1) be_uint16_t
              {| StringWriter.contents := [Byte.x07] |} 3 0x1234)
    as (w' & Hrun & Hsize & Hzero & _).
  - unfold StringWriter.wf, StringWriter.size, SIZE_MAX. simpl. lia.
  - reflexivity.
  - unfold StringWriter.size. simpl. lia.
  - simpl. lia.
  - exists w'. split; [exact Hrun|]. split; [exact Hsize|].
    split; apply Hzero; unfold StringWriter.size; simpl; lia.
Defined.

(** C4 as stated fails at large offsets. With [max_size() = 2^63 - 1] and an
    empty writer: at [offset = 2^63] the write ends past what a string can
    hold and [resize] throws; at [offset = 2^64 - 1] the sum
    [offset + sizeof(T)] wraps to [1], the string is resized to one byte and
    the copy goes outside it. In neither case does the write return with
    [size() = offset + sizeof(T)]. *)
Lemma pput_past_end_can_fail :
  let max_size := 2 ^ 63 - 1 in
  let w := {| StringWriter.contents := [] |} in
  StringWriter.wf max_size w /\ ctype_ok be_uint16_t 0x1234
  /\ (is_size_t (2 ^ 63) /\ StringWriter.size w < 2 ^ 63
      /\ StringWriter.pput max_size be_uint16_t (2 ^ 63) 0x1234 w
         = (Throws length_error, w))
  /\ (is_size_t (2 ^ 64 - 1) /\ StringWriter.size w < 2 ^ 64 - 1
      /\ (StringWriter.pput max_size be_uint16_t (2 ^ 64 - 1) 0x1234 w).1
         = Undefined).
Proof.
  cbv zeta.
  unfold StringWriter.wf, StringWriter.size, is_size_t, SIZE_MAX, ctype_ok.
  simpl. repeat split; try lia; reflexivity.
Qed.

(** C9, at the input where the code departs from it. The writer holds one
    byte and the write is a growing one, at [offset = 2^64 - 1]. The sum
    [offset + sizeof(T)] wraps to [1], which is not above [size()], so the
    string is not resized and [memcpy] writes at [data() + (2^64 - 1)],
    outside the contents; no byte is guaranteed to keep its value. *)
Theorem pput_wraps_outside_contents :
  let max_size := 2 ^ 63 - 1 in
  let w := {| StringWriter.contents := [Byte.x01] |} in
  let offset := 2 ^ 64 - 1 in
  StringWriter.wf max_size w /\ ctype_ok be_uint16_t 0x1234
  /\ is_size_t offset
  /\ StringWriter.size w < offset + sizeof be_uint16_t
  /\ size_add offset (sizeof be_uint16_t) = 1
  /\ (StringWriter.pput max_size be_uint16_t offset 0x1234 w).1 = Undefined.
Proof.
  cbv zeta.
  unfold StringWriter.wf, StringWriter.size, is_size_t, SIZE_MAX, ctype_ok.
  simpl. repeat split; try lia; reflexivity.
Qed.

(** ** Round trip through StringWriter and StringReader *)

Lemma to_signed_wrap (n : Z) (v : Z) :
  0 < n -> - 2 ^ (n - 1) <= v < 2 ^ (n - 1) ->
  to_signed n (v mod 2 ^ n) = v.
Proof.
  intros Hn Hv. unfold to_signed.
  assert (2 ^ n = 2 * 2 ^ (n - 1)) as E.
  { rewrite <- Z.pow_succ_r by lia. f_equal. lia. }
  pose proof (Z.pow_pos_nonneg 2 (n - 1) ltac:(lia) ltac:(lia)) as Hpos.
  rewrite Zplus_mod_idemp_l.
  rewrite (Z.mod_small (v + 2 ^ (n - 1))) by lia. lia.
Qed.

Lemma le_uint_roundtrip (n : nat) (v : Z) :
  0 <= v < 2 ^ (8 * Z.of_nat n) ->
  ctype_ok (le_uint n) v
  /\ from_bytes (le_uint n) (to_bytes (le_uint n) v) = v.
Proof.
  intros Hv. unfold ctype_ok. cbn [le_uint sizeof from_bytes to_bytes].
  rewrite length_le_split, le_combine_split.
  split; [reflexivity|]. rewrite Z.mul_comm. apply Z.mod_small. assumption.
Qed.

Lemma be_uint_roundtrip (n : nat) (v : Z) :
  0 <= v < 2 ^ (8 * Z.of_nat n) ->
  ctype_ok (be_uint n) v
  /\ from_bytes (be_uint n) (to_bytes (be_uint n) v) = v.
Proof.
  intros Hv. unfold ctype_ok. cbn [be_uint sizeof from_bytes to_bytes].
  rewrite length_rev, rev_involutive, length_le_split, le_combine_split.
  split; [reflexivity|]. rewrite Z.mul_comm. apply Z.mod_small. assumption.
Qed.

Lemma le_int_roundtrip (n : nat) (v : Z) :
  (0 < n)%nat ->
  - 2 ^ (8 * Z.of_nat n - 1) <= v < 2 ^ (8 * Z.of_nat n - 1) ->
  ctype_ok (le_int n) v
  /\ from_bytes (le_int n) (to_bytes (le_int n) v) = v.
Proof.
  intros Hn Hv. unfold ctype_ok. cbn [le_int sizeof from_bytes to_bytes].
  rewrite length_le_split, le_combine_split.
  split; [reflexivity|].
  rewrite (Z.mul_comm (Z.of_nat n) 8). apply to_signed_wrap; [lia|assumption].
Qed.

Lemma be_int_roundtrip (n : nat) (v : Z) :
  (0 < n)%nat ->
  - 2 ^ (8 * Z.of_nat n - 1) <= v < 2 ^ (8 * Z.of_nat n - 1) ->
  ctype_ok (be_int n) v
  /\ from_bytes (be_int n) (to_bytes (be_int n) v) = v.
Proof.
  intros Hn Hv. unfold ctype_ok. cbn [be_int sizeof from_bytes to_bytes].
  rewrite length_rev, rev_involutive, length_le_split, le_combine_split.
  split; [reflexivity|].
  rewrite (Z.mul_comm (Z.of_nat n) 8). apply to_signed_wrap; [lia|assumption].
Qed.

Section RoundTrip.

Variable max_size : Z.

(** An append that fits the string. *)
Lemma put_run {V} (T : ctype V) (v : V) (w : StringWriter.t) :
  StringWriter.wf max_size w -> ctype_ok T v ->
  StringWriter.size w + sizeof T <= max_size ->
  StringWriter.put max_size T v w
  = (Returns tt,
     {| StringWriter.contents := StringWriter.contents w ++ to_bytes T v |}).
Proof.
  intros (Hsz & Hmax) Hok Hfit. unfold ctype_ok in Hok.
  unfold StringWriter.size in *.
  unfold StringWriter.put. rewrite on_contents_run.
  unfold StringWriter.string_append.
  destruct (sizeof T >? _) eqn:E; [apply Z.gtb_lt in E; lia|].
  rewrite (proj2 (Z.leb_le 0 (sizeof T))) by lia.
  rewrite <- Hok at 1. rewrite Z.leb_refl. cbn [andb].
  rewrite <- Hok, Nat2Z.id, firstn_all. reflexivity.
Qed.

(** Reading a [T] right behind a prefix [c]. *)
Lemma get_behind_prefix {V} (T : ctype V) (c bs : list byte) :
  Z.of_nat (List.length bs) = sizeof T ->
  Z.of_nat (List.length (c ++ bs)) <= SIZE_MAX ->
  let r := StringReader.of_string (c ++ bs) (Z.of_nat (List.length c)) in
  StringReader.get T true (sizeof T) r
  = (Returns (from_bytes T bs),
     StringReader.set_offset r (Z.of_nat (List.length (c ++ bs)))).
Proof.
  intros Hbs Hmax r. subst r. rewrite length_app in *.
  unfold StringReader.get. rewrite read_then_advance_run.
  cbn [StringReader.of_string StringReader.offset StringReader.data].
  unfold StringReader.pget.
  rewrite pgetv_in_bounds;
    [|lia|lia
     |cbn [StringReader.of_string StringReader.length];
      rewrite length_app; lia
     |cbn [StringReader.of_string StringReader.length];
      rewrite length_app; lia].
  cbn [mbind outcome_MBind StringReader.of_string StringReader.data].
  rewrite load_in_bounds by (rewrite ?length_app; lia).
  rewrite Nat2Z.id, drop_app_length, <- Hbs, Nat2Z.id, firstn_all.
  cbn [mret outcome_MRet].
  rewrite size_add_nowrap by lia.
  do 3 f_equal. lia.
Qed.

(** Appending [v] as a [T] and reading a [T] back where it was written. *)
Lemma put_get_generic {V} (T : ctype V) (v : V) (w : StringWriter.t) :
  StringWriter.wf max_size w -> ctype_ok T v ->
  StringWriter.size w + sizeof T <= max_size ->
  exists w',
    StringWriter.put max_size T v w = (Returns tt, w')
    /\ StringWriter.str w' = StringWriter.str w ++ to_bytes T v
    /\ let r := StringReader.of_string (StringWriter.str w')
                  (StringWriter.size w) in
       StringReader.get T true (sizeof T) r
       = (Returns (from_bytes T (to_bytes T v)),
          StringReader.set_offset r (StringWriter.size w')).
Proof.
  intros Hwf Hok Hfit. eexists. split; [apply put_run; assumption|].
  split; [reflexivity|].
  unfold StringWriter.str, StringWriter.size.
  cbn [StringWriter.contents].
  apply get_behind_prefix; [exact Hok|].
  destruct Hwf as (Hsz & Hmax). unfold ctype_ok, StringWriter.size in *.
  rewrite length_app. lia.
Qed.

(** The round trip of one accessor pair, [put<T>] and [get<T>], from the
    round trip of the type [T]. *)
Lemma roundtrip_of_ctype (T : ctype Z) (v : Z) (wr : StringWriter.t) (n : Z) :
  sizeof T = n ->
  ctype_ok T v /\ from_bytes T (to_bytes T v) = v ->
  StringWriter.wf max_size wr ->
  StringWriter.size wr + n <= max_size ->
  exists put wr',
    Some (StringWriter.put max_size T) = Some put
    /\ put v wr = (Returns tt, wr')
    /\ StringWriter.size wr' = StringWriter.size wr + n
    /\ let r := StringReader.of_string (StringWriter.str wr')
                  (StringWriter.size wr) in
       StringReader.get T true (sizeof T) r
       = (Returns v, StringReader.set_offset r (StringWriter.size wr')).
Proof.
  intros <- [Hok Hrt] Hwf Hfit.
  destruct (put_get_generic T v wr Hwf Hok Hfit)
    as (wr' & Hput & Hstr & Hget).
  exists (StringWriter.put max_size T), wr'.
  split; [reflexivity|]. split; [exact Hput|]. split.
  - unfold StringWriter.size, StringWriter.str, ctype_ok in *.
    rewrite Hstr, length_app. lia.
  - cbv zeta in *. rewrite Hrt in Hget. exact Hget.
Qed.

(** C6, amended. For the widths that [StringWriter] has a [put] for, 8, 16,
    32 and 64 bits, both signednesses and both byte orders: every
    representable [v], appended with the [put] accessor to a writer with
    room for it, is what the matching [get] accessor returns from a reader
    over the written bytes placed where the value was written; the read
    leaves the cursor behind the value. *)
Theorem put_get_roundtrip (w : int_width) (s : signedness) (o : byte_order)
    (v : Z) (wr : StringWriter.t) :
  w <> W24 -> w <> W48 ->
  representable w s v ->
  StringWriter.wf max_size wr ->
  StringWriter.size wr + bits w / 8 <= max_size ->
  exists put wr',
    writer_put max_size w s o = Some put
    /\ put v wr = (Returns tt, wr')
    /\ StringWriter.size wr' = StringWriter.size wr + bits w / 8
    /\ let r := StringReader.of_string (StringWriter.str wr')
                  (StringWriter.size wr) in
       reader_get w s o true r
       = (Returns v, StringReader.set_offset r (StringWriter.size wr')).
Proof.
  intros H24 H48 Hrep Hwf Hfit.
  destruct w; try congruence; destruct s, o;
    unfold representable, bits in Hrep.
  (* 8 bits *)
  - exact (roundtrip_of_ctype uint8_t v wr _ eq_refl
             (le_uint_roundtrip 1 v Hrep) Hwf Hfit).
  - exact (roundtrip_of_ctype uint8_t v wr _ eq_refl
             (le_uint_roundtrip 1 v Hrep) Hwf Hfit).
  - exact (roundtrip_of_ctype int8_t v wr _ eq_refl
             (le_int_roundtrip 1 v ltac:(lia) Hrep) Hwf Hfit).
  - exact (roundtrip_of_ctype int8_t v wr _ eq_refl
             (le_int_roundtrip 1 v ltac:(lia) Hrep) Hwf Hfit).
  (* 16 bits *)
  - exact (roundtrip_of_ctype be_uint16_t v wr _ eq_refl
             (be_uint_roundtrip 2 v Hrep) Hwf Hfit).
  - exact (roundtrip_of_ctype le_uint16_t v wr _ eq_refl
             (le_uint_roundtrip 2 v Hrep) Hwf Hfit).
  - exact (roundtrip_of_ctype be_int16_t v wr _ eq_refl
             (be_int_roundtrip 2 v ltac:(lia) Hrep) Hwf Hfit).
  - exact (roundtrip_of_ctype le_int16_t v wr _ eq_refl
             (le_int_roundtrip 2 v ltac:(lia) Hrep) Hwf Hfit).
  (* 32 bits *)
  - exact (roundtrip_of_ctype be_uint32_t v wr _ eq_refl
             (be_uint_roundtrip 4 v Hrep) Hwf Hfit).
  - exact (roundtrip_of_ctype le_uint32_t v wr _ eq_refl
             (le_uint_roundtrip 4 v Hrep) Hwf Hfit).
  - exact (roundtrip_of_ctype be_int32_t v wr _ eq_refl
             (be_int_roundtrip 4 v ltac:(lia) Hrep) Hwf Hfit).
  - exact (roundtrip_of_ctype le_int32_t v wr _ eq_refl
             (le_int_roundtrip 4 v ltac:(lia) Hrep) Hwf Hfit).
  (* 64 bits *)
  - exact (roundtrip_of_ctype be_uint64_t v wr _ eq_refl
             (be_uint_roundtrip 8 v Hrep) Hwf Hfit).
  - exact (roundtrip_of_ctype le_uint64_t v wr _ eq_refl
             (le_uint_roundtrip 8 v Hrep) Hwf Hfit).
  - exact (roundtrip_of_ctype be_int64_t v wr _ eq_refl
             (be_int_roundtrip 8 v ltac:(lia) Hrep) Hwf Hfit).
  - exact (roundtrip_of_ctype le_int64_t v wr _ eq_refl
             (le_int_roundtrip 8 v ltac:(lia) Hrep) Hwf Hfit).
Qed.

End RoundTrip.

(** Witness of C6: the least 64-bit signed value, big-endian, appended to a
    one-byte writer and read back. *)
Lemma put_get_roundtrip_witness :
  let wr := {| StringWriter.contents := [Byte.x07] |} in
  exists put wr',
    writer_put (2 ^ 63 - 1) W64 Signed BigEndian = Some put
    /\ put (- 2 ^ 63) wr = (Returns tt, wr')
    /\ StringWriter.size wr' = StringWriter.size wr + bits W64 / 8
    /\ let r := StringReader.of_string (StringWriter.str wr')
                  (StringWriter.size wr) in
       reader_get W64 Signed BigEndian true r
       = (Returns (- 2 ^ 63),
          StringReader.set_offset r (StringWriter.size wr')).
Proof.
  intros wr.
  apply (put_get_roundtrip (2 ^ 63 - 1) W64 Signed BigEndian (- 2 ^ 63) wr).
  - discriminate.
  - discriminate.
  - unfold representable, bits. simpl. lia.
  - unfold StringWriter.wf, StringWriter.size, SIZE_MAX, wr. simpl. lia.
  - unfold StringWriter.size, wr. change (bits W64 / 8) with 8. simpl. lia.
Defined.

(** C6 as stated fails for the 24-bit and 48-bit widths: [StringReader] has
    [get_u24b], [get_s48l] and the like, and [StringWriter] has no [put]
    accessor of these widths to write the value with. *)
Lemma no_put_accessor_for_24_and_48_bits :
  representable W24 Unsigned 0 /\ representable W48 Signed (-1)
  /\ writer_put (2 ^ 63 - 1) W24 Unsigned BigEndian = None
  /\ writer_put (2 ^ 63 - 1) W48 Signed LittleEndian = None
  /\ ~ (forall (w : int_width) (s : signedness) (o : byte_order),
          exists put, writer_put (2 ^ 63 - 1) w s o = Some put).
Proof.
  unfold representable, bits.
  split; [simpl; lia|]. split; [simpl; lia|].
  split; [reflexivity|]. split; [reflexivity|].
  intros H. destruct (H W24 Unsigned BigEndian) as [put Hput]. discriminate.
Qed.

(** ** BufferWriter *)

Lemma pwrite_in_bounds (w : BufferWriter.t) (offset : Z) (data : list byte)
    (size : Z) :
  BufferWriter.wf w -> 0 <= offset -> Z.of_nat (List.length data) = size ->
  offset + size <= BufferWriter.buf_size w ->
  BufferWriter.pwrite offset data size w
  = (Returns tt,
     BufferWriter.set_buf w
       (take (Z.to_nat offset) (BufferWriter.buf w) ++ data
        ++ drop (Z.to_nat (offset + size)) (BufferWriter.buf w))).
Proof.
  intros (Hlen & Hmax & Hoff) Ho Hsize Hb.
  unfold BufferWriter.pwrite, update.
  rewrite size_add_nowrap by lia.
  destruct (offset + size >? BufferWriter.buf_size w) eqn:E;
    [apply Z.gtb_lt in E; lia|].
  rewrite (memcpy_in_bounds _ _ _ _ Hsize) by lia. reflexivity.
Qed.

Lemma pwrite_out_of_bounds (w : BufferWriter.t) (offset : Z)
    (data : list byte) (size : Z) :
  0 <= offset -> 0 <= size -> offset + size <= SIZE_MAX ->
  BufferWriter.buf_size w < offset + size ->
  BufferWriter.pwrite offset data size w
  = (Throws (runtime_error "Offset out of bounds"), w).
Proof.
  intros Ho Hs Hwrap Hb.
  unfold BufferWriter.pwrite, update.
  rewrite size_add_nowrap by lia.
  destruct (offset + size >? BufferWriter.buf_size w) eqn:E; [reflexivity|].
  rewrite Z.gtb_ltb in E. apply Z.ltb_ge in E. lia.
Qed.

(** What the bounds check does decide. With [size] bytes of [data] and a
    span whose end [offset + size] does not wrap [size_t]: a [pwrite] or
    [write] whose span exceeds [buf_size] throws [std::runtime_error] and
    leaves the writer, buffer and cursor, as it was; one whose span is
    inside the buffer returns, the buffer then holds [data] at the span and
    its old bytes elsewhere, its length is unchanged, and [write] has moved
    the cursor by [size]. *)
Lemma buffer_writer_is_bounded (w : BufferWriter.t) (offset : Z)
    (data : list byte) (size : Z) :
  BufferWriter.wf w -> 0 <= offset -> Z.of_nat (List.length data) = size ->
  offset + size <= SIZE_MAX ->
  let written :=
    take (Z.to_nat offset) (BufferWriter.buf w) ++ data
    ++ drop (Z.to_nat (offset + size)) (BufferWriter.buf w) in
  (BufferWriter.buf_size w < offset + size ->
   BufferWriter.pwrite offset data size w
   = (Throws (runtime_error "Offset out of bounds"), w)
   /\ (BufferWriter.offset w = offset ->
       BufferWriter.write data size w
       = (Throws (runtime_error "Offset out of bounds"), w)))
  /\ (offset + size <= BufferWriter.buf_size w ->
      List.length written = List.length (BufferWriter.buf w)
      /\ take (Z.to_nat size) (drop (Z.to_nat offset) written) = data
      /\ BufferWriter.pwrite offset data size w
         = (Returns tt, BufferWriter.set_buf w written)
      /\ (BufferWriter.offset w = offset ->
          BufferWriter.write data size w
          = (Returns tt,
             BufferWriter.set_offset (BufferWriter.set_buf w written)
               (offset + size)))).
Proof.
  intros Hwf Ho Hsize Hwrap written.
  assert (0 <= size) as Hs by lia.
  split.
  - intros Hout.
    pose proof (pwrite_out_of_bounds w offset data size Ho Hs Hwrap Hout) as E.
    split; [exact E|]. intros Hoff.
    unfold BufferWriter.write, mbind, method_MBind, method_bind, this.
    rewrite Hoff, E. reflexivity.
  - intros Hin.
    pose proof (pwrite_in_bounds w offset data size Hwf Ho Hsize Hin) as E.
    fold written in E.
    destruct Hwf as (Hlen & Hmax & Hoffr).
    assert (List.length written = List.length (BufferWriter.buf w)) as Hl.
    { subst written. rewrite !length_app, length_take, length_drop. lia. }
    split; [exact Hl|]. split; [|split; [exact E|]].
    + subst written.
      rewrite drop_app_length' by (rewrite length_take; lia).
      rewrite take_app_length' by lia. reflexivity.
    + intros Hoff.
      unfold BufferWriter.write, mbind, method_MBind, method_bind, this.
      rewrite Hoff, E. unfold modify.
      cbn [BufferWriter.set_buf BufferWriter.offset].
      rewrite Hoff, size_add_nowrap by lia. reflexivity.
Qed.

(** Two bytes written at the cursor of a three-byte buffer, with the
    cursor at 1. *)
Lemma buffer_writer_is_bounded_witness :
  let w := {| BufferWriter.buf := [Byte.x00; Byte.x00; Byte.x00];
              BufferWriter.buf_size := 3; BufferWriter.offset := 1 |} in
  BufferWriter.write [Byte.x0a; Byte.x0b] 2 w
  = (Returns tt,
     {| BufferWriter.buf := [Byte.x00; Byte.x0a; Byte.x0b];
        BufferWriter.buf_size := 3; BufferWriter.offset := 3 |}).
Proof.
  intros w.
  destruct (buffer_writer_is_bounded w 1 [Byte.x0a; Byte.x0b] 2) as [_ Hin].
  - unfold BufferWriter.wf, is_size_t, SIZE_MAX. simpl. lia.
  - lia.
  - reflexivity.
  - unfold SIZE_MAX. lia.
  - destruct (Hin ltac:(simpl; lia)) as (_ & _ & _ & Hwrite).
    exact (Hwrite eq_refl).
Defined.

(** The kind of failure: a write past the capacity throws
    [std::runtime_error], which is not [std::out_of_range], the exception of
    the readers. *)
Lemma buffer_writer_throws_runtime_error :
  let w := {| BufferWriter.buf := [Byte.x00; Byte.x00; Byte.x00];
              BufferWriter.buf_size := 3; BufferWriter.offset := 2 |} in
  BufferWriter.wf w
  /\ BufferWriter.buf_size w < BufferWriter.offset w + 2
  /\ (BufferWriter.write [Byte.x0a; Byte.x0b] 2 w).1
     = Throws (runtime_error "Offset out of bounds")
  /\ forall what : string,
       (BufferWriter.write [Byte.x0a; Byte.x0b] 2 w).1
       <> Throws (out_of_range what).
Proof.
  cbv zeta. unfold BufferWriter.wf, is_size_t, SIZE_MAX. simpl.
  repeat split; try lia. intros what. discriminate.
Qed.

(** C5, at the input where the code departs from it. The writer is over a
    one-byte buffer and is asked to write one byte at [offset = 2^64 - 1].
    The span [[2^64-1, 2^64)] exceeds the capacity, so the claim asks for a
    failure that leaves the buffer alone. The sum [offset + size] wraps to
    [0], which is not above [buf_size], the check passes, nothing is thrown,
    and [memcpy] writes at [buf + (2^64 - 1)], outside the buffer. The typed
    [pput<uint8_t>] goes the same way. *)
Theorem pwrite_bounds_check_wraps :
  let w := {| BufferWriter.buf := [Byte.x00];
              BufferWriter.buf_size := 1; BufferWriter.offset := 0 |} in
  let offset := 2 ^ 64 - 1 in
  let size := 1 in
  BufferWriter.wf w /\ is_size_t offset /\ is_size_t size
  /\ BufferWriter.buf_size w < offset + size
  /\ size_add offset size = 0
  /\ (BufferWriter.pwrite offset [Byte.xee] size w).1 = Undefined
  /\ (BufferWriter.pput uint8_t offset 0xee w).1 = Undefined
  /\ forall e : exception,
       (BufferWriter.pwrite offset [Byte.xee] size w).1 <> Throws e.
Proof.
  cbv zeta. unfold BufferWriter.wf, is_size_t, SIZE_MAX. simpl.
  repeat split; try lia; try reflexivity. intros e. discriminate.
Qed.

(** ** strip_multiline_comments: the loop *)

(** The test for a two-character delimiter at [z], on the characters from
    [z] on. *)
Lemma delimiter_test (s : list ascii) (z : nat) (a b c : ascii) :
  s !! z = Some c ->
  Ascii.eqb (char_at s z) a && (z + 1 <? List.length s)%nat
  && Ascii.eqb (char_at s (z + 1)) b
  = match drop (S z) s with
    | d :: _ => Ascii.eqb c a && Ascii.eqb d b
    | [] => false
    end.
Proof.
  intros Hc. unfold char_at. rewrite Hc. cbn [default].
  destruct (drop (S z) s) as [|d l''] eqn:Hd.
  - apply drop_nil_inv in Hd.
    replace (z + 1 <? List.length s)%nat with false
      by (symmetry; apply Nat.ltb_ge; lia).
    rewrite andb_false_r. reflexivity.
  - assert (s !! (z + 1)%nat = Some d) as Hd'.
    { replace (z + 1)%nat with (S z + 0)%nat by lia.
      rewrite <- lookup_drop, Hd. reflexivity. }
    rewrite Hd'. cbn [default].
    pose proof (lookup_lt_Some _ _ _ Hd').
    replace (z + 1 <? List.length s)%nat with true
      by (symmetry; apply Nat.ltb_lt; lia).
    rewrite andb_true_r. reflexivity.
Qed.

Lemma drop_two (s : list ascii) (z : nat) (d : ascii) (l : list ascii) :
  drop (S z) s = d :: l ->
  drop (z + 2) s = l /\ (z + 2 <= List.length s)%nat.
Proof.
  intros Hd. split.
  - replace (z + 2)%nat with (S z + 1)%nat by lia.
    rewrite <- drop_drop, Hd. reflexivity.
  - pose proof (f_equal List.length Hd) as Hl.
    rewrite length_drop in Hl. simpl in Hl. lia.
Qed.

(** Writing at [write_offset], behind the read position, leaves the
    characters still to be read alone and extends what was written. *)
Lemma write_behind (s : list ascii) (wo z : nat) (c : ascii) :
  (wo <= z < List.length s)%nat ->
  take (wo + 1) (<[wo := c]> s) = take wo s ++ [c]
  /\ drop (z + 1) (<[wo := c]> s) = drop (z + 1) s
  /\ List.length (<[wo := c]> s) = List.length s.
Proof.
  intros Hwo. split; [|split].
  - replace (wo + 1)%nat with (S wo) by lia.
    rewrite (take_S_r _ _ c) by (apply list_lookup_insert_eq; lia).
    rewrite take_insert_ge by lia. reflexivity.
  - apply drop_insert_lt. lia.
  - apply length_insert.
Qed.

Lemma strip_chars_inside_last (c : ascii) :
  strip_chars true [c]
  = (if Ascii.eqb c "010" then ["010"%char] else [], true).
Proof. reflexivity. Qed.

Lemma strip_chars_inside_cons (c d : ascii) (l : list ascii) :
  strip_chars true (c :: d :: l)
  = if Ascii.eqb c "*" && Ascii.eqb d "/"
    then strip_chars false l
    else ((if Ascii.eqb c "010" then ["010"%char] else [])
          ++ (strip_chars true (d :: l)).1,
          (strip_chars true (d :: l)).2).
Proof.
  change (strip_chars true (c :: d :: l))
    with (if Ascii.eqb c "*" && Ascii.eqb d "/"
          then strip_chars false l
          else let '(out, b) := strip_chars true (d :: l) in
               (if Ascii.eqb c "010" then "010"%char :: out else out, b)).
  destruct (Ascii.eqb c "*" && Ascii.eqb d "/"); [reflexivity|].
  destruct (strip_chars true (d :: l)) as [out b].
  destruct (Ascii.eqb c "010"); reflexivity.
Qed.

Lemma strip_chars_outside_last (c : ascii) :
  strip_chars false [c] = ([c], false).
Proof. reflexivity. Qed.

Lemma strip_chars_outside_cons (c d : ascii) (l : list ascii) :
  strip_chars false (c :: d :: l)
  = if Ascii.eqb c "/" && Ascii.eqb d "*"
    then strip_chars true l
    else (c :: (strip_chars false (d :: l)).1,
          (strip_chars false (d :: l)).2).
Proof.
  change (strip_chars false (c :: d :: l))
    with (if Ascii.eqb c "/" && Ascii.eqb d "*"
          then strip_chars true l
          else let '(out, b) := strip_chars false (d :: l) in (c :: out, b)).
  destruct (Ascii.eqb c "/" && Ascii.eqb d "*"); [reflexivity|].
  destruct (strip_chars false (d :: l)) as [out b]. reflexivity.
Qed.

(** The loop, run with enough fuel from a state whose write position is
    not ahead of its read position, exits with [z = s.size()], has written
    behind what was already written what [strip_chars] gives for the
    characters left to read, and ends in the mode [strip_chars] ends in. *)
Lemma strip_loop_refines (fuel : nat) :
  forall st : strip_state,
    (write_offset st <= z st <= List.length (s st))%nat ->
    (List.length (s st) - z st <= fuel)%nat ->
    let st' := strip_loop fuel st in
    z st' = List.length (s st')
    /\ List.length (s st') = List.length (s st)
    /\ (write_offset st' <= List.length (s st'))%nat
    /\ take (write_offset st') (s st')
       = take (write_offset st) (s st)
         ++ (strip_chars (is_in_comment st) (drop (z st) (s st))).1
    /\ is_in_comment st'
       = (strip_chars (is_in_comment st) (drop (z st) (s st))).2.
Proof.
  induction fuel as [|fuel IH]; intros [str ic wo pos] Hpos Hfuel;
    cbn [s is_in_comment write_offset z] in *.
  - assert (pos = List.length str) as -> by lia.
    cbn [strip_loop s is_in_comment write_offset z].
    rewrite drop_all. cbn [strip_chars fst snd]. rewrite app_nil_r.
    repeat split; try reflexivity; lia.
  - cbn [strip_loop s is_in_comment write_offset z].
    destruct (Nat.ltb_spec pos (List.length str)) as [Hlt|Hge].
    2:{ assert (pos = List.length str) as -> by lia.
        cbn [s is_in_comment write_offset z].
        rewrite drop_all. cbn [strip_chars fst snd]. rewrite app_nil_r.
        repeat split; try reflexivity; lia. }
    destruct (lookup_lt_is_Some_2 str pos Hlt) as [c Hc].
    rewrite (drop_S _ _ _ Hc).
    assert (char_at str pos = c) as Hcz by (unfold char_at; rewrite Hc; reflexivity).
    destruct (write_behind str wo pos c ltac:(lia)) as (Wt & Wd & Wl).
    destruct (write_behind str wo pos "010"%char ltac:(lia)) as (Nt & Nd & Nl).
    unfold strip_body.
    destruct ic; cbn [negb].
    + (* inside a comment *)
      rewrite (delimiter_test str pos "*" "/" c Hc).
      destruct (drop (S pos) str) as [|d l''] eqn:Hd.
      * (* the last character *)
        apply drop_nil_inv in Hd.
        rewrite Hcz, strip_chars_inside_last.
        destruct (Ascii.eqb c "010") eqn:Hnl.
        -- specialize (IH {| s := <[wo := "010"%char]> str; is_in_comment := true;
                             write_offset := wo + 1; z := pos + 1 |}).
           cbn [s is_in_comment write_offset z] in IH.
           rewrite Nl, Nt, Nd in IH.
           rewrite (drop_ge str (pos + 1)) in IH by lia.
           cbn [strip_chars fst snd] in IH. rewrite app_nil_r in IH.
           apply IH; lia.
        -- specialize (IH {| s := str; is_in_comment := true;
                             write_offset := wo; z := pos + 1 |}).
           cbn [s is_in_comment write_offset z] in IH.
           rewrite (drop_ge str (pos + 1)) in IH by lia.
           cbn [strip_chars fst snd] in IH.
           apply IH; lia.
      * destruct (drop_two str pos d l'' Hd) as (Hd2 & Hlen2).
        rewrite strip_chars_inside_cons.
        destruct (Ascii.eqb c "*" && Ascii.eqb d "/") eqn:Hclose.
        -- specialize (IH {| s := str; is_in_comment := false;
                             write_offset := wo; z := pos + 2 |}).
           cbn [s is_in_comment write_offset z] in IH.
           rewrite Hd2 in IH. apply IH; lia.
        -- rewrite Hcz.
           assert (drop (pos + 1) str = d :: l'') as Hd1
             by (rewrite <- Hd; f_equal; lia).
           cbn [fst snd].
           destruct (Ascii.eqb c "010") eqn:Hnl.
           ++ specialize (IH {| s := <[wo := "010"%char]> str;
                                is_in_comment := true;
                                write_offset := wo + 1; z := pos + 1 |}).
              cbn [s is_in_comment write_offset z] in IH.
              rewrite Nl, Nt, Nd, Hd1, <- app_assoc in IH.
              apply IH; lia.
           ++ specialize (IH {| s := str; is_in_comment := true;
                                write_offset := wo; z := pos + 1 |}).
              cbn [s is_in_comment write_offset z] in IH.
              rewrite Hd1 in IH. apply IH; lia.
    + (* outside a comment *)
      rewrite (delimiter_test str pos "/" "*" c Hc).
      destruct (drop (S pos) str) as [|d l''] eqn:Hd.
      * apply drop_nil_inv in Hd.
        rewrite Hcz, strip_chars_outside_last.
        specialize (IH {| s := <[wo := c]> str; is_in_comment := false;
                          write_offset := wo + 1; z := pos + 1 |}).
        cbn [s is_in_comment write_offset z] in IH.
        rewrite Wl, Wt, Wd in IH.
        rewrite (drop_ge str (pos + 1)) in IH by lia.
        cbn [strip_chars fst snd] in IH. rewrite app_nil_r in IH.
        apply IH; lia.
      * destruct (drop_two str pos d l'' Hd) as (Hd2 & Hlen2).
        rewrite strip_chars_outside_cons.
        destruct (Ascii.eqb c "/" && Ascii.eqb d "*") eqn:Hopen.
        -- specialize (IH {| s := str; is_in_comment := true;
                             write_offset := wo; z := pos + 2 |}).
           cbn [s is_in_comment write_offset z] in IH.
           rewrite Hd2 in IH. apply IH; lia.
        -- rewrite Hcz.
           assert (drop (pos + 1) str = d :: l'') as Hd1
             by (rewrite <- Hd; f_equal; lia).
           cbn [fst snd].
           specialize (IH {| s := <[wo := c]> str; is_in_comment := false;
                             write_offset := wo + 1; z := pos + 1 |}).
           cbn [s is_in_comment write_offset z] in IH.
           rewrite Wl, Wt, Wd, Hd1, <- app_assoc in IH.
           apply IH; lia.
Qed.

(** The loop exits: with [s.size()] iterations allowed it stops because
    [z] has reached [s.size()], not because the allowance ran out. *)
Lemma strip_loop_exits (str : list ascii) :
  let st := strip_loop (List.length str)
              {| s := str; is_in_comment := false;
                 write_offset := 0; z := 0 |} in
  z st = List.length (s st).
Proof.
  apply (strip_loop_refines (List.length str)
           {| s := str; is_in_comment := false; write_offset := 0; z := 0 |});
    cbn [s write_offset z]; lia.
Qed.

(** The function in terms of [strip_chars]. *)
Lemma strip_multiline_comments_run (allow_unterminated : bool)
    (str : list ascii) :
  strip_multiline_comments allow_unterminated str
  = (if negb allow_unterminated && (strip_chars false str).2
     then Throws (runtime_error "unterminated multiline comment")
     else Returns tt,
     (strip_chars false str).1).
Proof.
  unfold strip_multiline_comments.
  destruct (strip_loop_refines (List.length str)
              {| s := str; is_in_comment := false; write_offset := 0; z := 0 |})
    as (Hz & Hlen & Hwo & Htake & Hic);
    [cbn [s write_offset z]; lia | cbn [s write_offset z]; lia |].
  cbn [s write_offset z is_in_comment] in *.
  rewrite drop_0 in Htake, Hic. rewrite take_0, app_nil_l in Htake.
  rewrite Htake, Hic.
  replace (_ - _)%nat with 0%nat by lia.
  cbn [replicate]. rewrite app_nil_r.
  destruct (negb allow_unterminated && (strip_chars false str).2); reflexivity.
Qed.

(** ** strip_multiline_comments: the comment structure *)

Lemma has_pair_cons (a b c : ascii) (l : list ascii) :
  has_pair a b (c :: l)
  = match l with
    | d :: _ => (Ascii.eqb c a && Ascii.eqb d b) || has_pair a b l
    | [] => false
    end.
Proof. reflexivity. Qed.

Lemma newlines_cons (c : ascii) (l : list ascii) :
  newlines (c :: l)
  = (if Ascii.eqb c "010" then ["010"%char] else []) ++ newlines l.
Proof.
  unfold newlines. cbn [List.filter].
  destruct (Ascii.eqb_spec c "010") as [->|]; reflexivity.
Qed.

Lemma newlines_app (l1 l2 : list ascii) :
  newlines (l1 ++ l2) = newlines l1 ++ newlines l2.
Proof. apply List.filter_app. Qed.

Lemma newlines_idemp (l : list ascii) : newlines (newlines l) = newlines l.
Proof.
  induction l as [|c l IH]; [reflexivity|].
  rewrite newlines_cons, newlines_app, IH.
  destruct (Ascii.eqb c "010"); reflexivity.
Qed.

(** Text without an opener is copied: up to the end, or up to the first
    opener. *)
Lemma strip_chars_text (t : list ascii) :
  has_pair "/" "*" t = false -> strip_chars false t = (t, false).
Proof.
  induction t as [|c t IH]; [reflexivity|].
  destruct t as [|d t]; [reflexivity|].
  rewrite has_pair_cons. intros H. apply orb_false_elim in H as [Hcd Ht].
  rewrite strip_chars_outside_cons, Hcd, (IH Ht). reflexivity.
Qed.

Lemma strip_chars_text_then_comment (t rest : list ascii) :
  has_pair "/" "*" t = false ->
  strip_chars false (t ++ comment_open ++ rest)
  = (t ++ (strip_chars true rest).1, (strip_chars true rest).2).
Proof.
  induction t as [|c t IH]; intros H.
  - cbn [app comment_open]. rewrite strip_chars_outside_cons.
    destruct (strip_chars true rest); reflexivity.
  - destruct t as [|d t].
    + cbn [app comment_open] in *.
      rewrite strip_chars_outside_cons.
      change (Ascii.eqb "/" "*") with false. rewrite andb_false_r.
      rewrite (IH eq_refl). reflexivity.
    + rewrite has_pair_cons in H. apply orb_false_elim in H as [Hcd Ht].
      change ((c :: d :: t) ++ comment_open ++ rest)
        with (c :: d :: (t ++ comment_open ++ rest)).
      rewrite strip_chars_outside_cons, Hcd.
      change (d :: (t ++ comment_open ++ rest))
        with ((d :: t) ++ comment_open ++ rest).
      rewrite (IH Ht). reflexivity.
Qed.

(** A comment without a closer leaves its newlines: up to the end, or up to
    the first closer. *)
Lemma strip_chars_comment (c : list ascii) :
  has_pair "*" "/" c = false -> strip_chars true c = (newlines c, true).
Proof.
  induction c as [|x c IH]; [reflexivity|].
  destruct c as [|y c].
  - intros _. rewrite strip_chars_inside_last, newlines_cons.
    rewrite app_nil_r. reflexivity.
  - rewrite has_pair_cons. intros H. apply orb_false_elim in H as [Hxy Hc].
    rewrite strip_chars_inside_cons, Hxy, (IH Hc), (newlines_cons x).
    reflexivity.
Qed.

Lemma strip_chars_comment_then_text (c rest : list ascii) :
  has_pair "*" "/" c = false ->
  strip_chars true (c ++ comment_close ++ rest)
  = (newlines c ++ (strip_chars false rest).1, (strip_chars false rest).2).
Proof.
  induction c as [|x c IH]; intros H.
  - cbn [app comment_close]. rewrite strip_chars_inside_cons.
    destruct (strip_chars false rest); reflexivity.
  - destruct c as [|y c].
    + cbn [app comment_close] in *.
      rewrite strip_chars_inside_cons.
      change (Ascii.eqb "*" "/") with false. rewrite andb_false_r.
      rewrite (IH eq_refl), newlines_cons. cbn [fst snd newlines List.filter app].
      rewrite app_nil_r. reflexivity.
    + rewrite has_pair_cons in H. apply orb_false_elim in H as [Hxy Hc].
      change ((x :: y :: c) ++ comment_close ++ rest)
        with (x :: y :: (c ++ comment_close ++ rest)).
      rewrite strip_chars_inside_cons, Hxy.
      change (y :: (c ++ comment_close ++ rest))
        with ((y :: c) ++ comment_close ++ rest).
      rewrite (IH Hc), (newlines_cons x). cbn [fst snd].
      rewrite app_assoc. reflexivity.
Qed.

(** What the loop computes for a text is what its comment structure
    says. *)
Lemma strip_chars_sound :
  (forall l kept open,
      outside_comment l kept open -> strip_chars false l = (kept, open))
  /\ (forall l kept open,
        inside_comment l kept open -> strip_chars true l = (kept, open)).
Proof.
  split.
  - intros l kept open H.
    induction H using outside_comment_mut
      with (P0 := fun l kept open _ => strip_chars true l = (kept, open)).
    + apply strip_chars_text. assumption.
    + rewrite strip_chars_text_then_comment, IHoutside_comment by assumption.
      reflexivity.
    + apply strip_chars_comment. assumption.
    + rewrite strip_chars_comment_then_text, IHoutside_comment by assumption.
      reflexivity.
  - intros l kept open H.
    induction H using inside_comment_mut
      with (P := fun l kept open _ => strip_chars false l = (kept, open)).
    + apply strip_chars_text. assumption.
    + rewrite strip_chars_text_then_comment, IHinside_comment by assumption.
      reflexivity.
    + apply strip_chars_comment. assumption.
    + rewrite strip_chars_comment_then_text, IHinside_comment by assumption.
      reflexivity.
Qed.

Lemma outside_comment_cons (c : ascii) (l kept : list ascii) (open : bool) :
  match l with
  | d :: _ => Ascii.eqb c "/" && Ascii.eqb d "*"
  | [] => false
  end = false ->
  outside_comment l kept open -> outside_comment (c :: l) (c :: kept) open.
Proof.
  intros Hcd H. inversion H as [t Ht|t rest kept' open' Ht Hin]; subst.
  - apply text_to_end. rewrite has_pair_cons.
    destruct kept; [reflexivity|]. rewrite Hcd, Ht. reflexivity.
  - apply (text_then_comment (c :: t)); [|assumption].
    rewrite has_pair_cons.
    destruct t as [|d t]; [reflexivity|].
    cbn [app] in Hcd. rewrite Hcd, Ht. reflexivity.
Qed.

Lemma inside_comment_cons (c : ascii) (l kept : list ascii) (open : bool) :
  match l with
  | d :: _ => Ascii.eqb c "*" && Ascii.eqb d "/"
  | [] => false
  end = false ->
  inside_comment l kept open ->
  inside_comment (c :: l)
    ((if Ascii.eqb c "010" then ["010"%char] else []) ++ kept) open.
Proof.
  intros Hcd H. inversion H as [t Ht|t rest kept' open' Ht Hout]; subst.
  - replace (_ ++ newlines l) with (newlines (c :: l))
      by apply newlines_cons.
    apply comment_to_end. rewrite has_pair_cons.
    destruct l; [reflexivity|]. rewrite Hcd, Ht. reflexivity.
  - rewrite (app_assoc _ (newlines t) kept').
    replace (_ ++ newlines t) with (newlines (c :: t))
      by apply newlines_cons.
    apply (comment_then_text (c :: t)); [|assumption].
    rewrite has_pair_cons.
    destruct t as [|d t]; [reflexivity|].
    cbn [app] in Hcd. rewrite Hcd, Ht. reflexivity.
Qed.

(** Every text has a comment structure, the one the loop follows. *)
Lemma strip_chars_complete (n : nat) :
  forall l : list ascii,
    (List.length l <= n)%nat ->
    outside_comment l (strip_chars false l).1 (strip_chars false l).2
    /\ inside_comment l (strip_chars true l).1 (strip_chars true l).2.
Proof.
  induction n as [|n IH]; intros l Hlen.
  - destruct l; [|simpl in Hlen; lia].
    split; [apply text_to_end | apply (comment_to_end [])]; reflexivity.
  - destruct l as [|c [|d l]].
    + split; [apply text_to_end | apply (comment_to_end [])]; reflexivity.
    + split.
      * apply text_to_end. reflexivity.
      * rewrite strip_chars_inside_last. cbn [fst snd].
        replace (if Ascii.eqb c "010" then _ else _) with (newlines [c])
          by (rewrite newlines_cons; apply app_nil_r).
        apply comment_to_end. reflexivity.
    + simpl in Hlen.
      destruct (IH (d :: l) ltac:(simpl; lia)) as [Hout1 Hin1].
      destruct (IH l ltac:(lia)) as [Hout2 Hin2].
      split.
      * rewrite strip_chars_outside_cons.
        destruct (Ascii.eqb c "/" && Ascii.eqb d "*") eqn:Hcd.
        -- apply andb_prop in Hcd as [Hc Hd].
           apply Ascii.eqb_eq in Hc, Hd. subst c d.
           apply (text_then_comment [] l); [reflexivity|assumption].
        -- cbn [fst snd]. apply outside_comment_cons; assumption.
      * rewrite strip_chars_inside_cons.
        destruct (Ascii.eqb c "*" && Ascii.eqb d "/") eqn:Hcd.
        -- apply andb_prop in Hcd as [Hc Hd].
           apply Ascii.eqb_eq in Hc, Hd. subst c d.
           apply (comment_then_text [] l); [reflexivity|assumption].
        -- cbn [fst snd]. apply inside_comment_cons; assumption.
Qed.

(** C8, amended. Every text has one comment structure. With
    [allow_unterminated] the call returns; without it the call throws
    [std::runtime_error] exactly when the text ends inside an unterminated
    comment. Either way the string left behind is the text outside the
    comments, in order, with the newlines of every comment, the
    unterminated one included, at the place of the comment. *)
Theorem strip_multiline_comments_follows_comments (str : list ascii) :
  exists (kept : list ascii) (open : bool),
    outside_comment str kept open
    /\ (forall kept' open',
          outside_comment str kept' open' -> kept' = kept /\ open' = open)
    /\ strip_multiline_comments true str = (Returns tt, kept)
    /\ strip_multiline_comments false str
       = (if open
          then Throws (runtime_error "unterminated multiline comment")
          else Returns tt,
          kept).
Proof.
  exists (strip_chars false str).1, (strip_chars false str).2.
  split; [apply (strip_chars_complete (List.length str)); lia|].
  split.
  - intros kept' open' H.
    rewrite (proj1 strip_chars_sound _ _ _ H). split; reflexivity.
  - rewrite !strip_multiline_comments_run. split; reflexivity.
Qed.

(** C8 as stated fails on what becomes of an unterminated tail: it is not
    simply dropped, its newlines stay. The text ["a"] before the tail gives
    ["a"]; with the tail the call leaves ["a"] and a newline. *)
Lemma unterminated_tail_keeps_its_newlines :
  let text := list_ascii_of_string "a" in
  let tail := comment_open ++ ["b"; "010"; "c"]%char in
  outside_comment text text false
  /\ inside_comment ["b"; "010"; "c"]%char ["010"%char] true
  /\ strip_multiline_comments true text = (Returns tt, text)
  /\ strip_multiline_comments true (text ++ tail)
     = (Returns tt, text ++ ["010"%char])
  /\ (strip_multiline_comments true (text ++ tail)).2 <> text.
Proof.
  cbv zeta. split; [apply text_to_end; reflexivity|].
  split; [apply (comment_to_end ["b"; "010"; "c"]%char); reflexivity|].
  split; [reflexivity|]. split; [reflexivity|]. discriminate.
Qed.

(** ** strip_multiline_comments: newlines *)

Lemma newlines_kept :
  (forall l kept open, outside_comment l kept open -> newlines kept = newlines l)
  /\ (forall l kept open,
        inside_comment l kept open -> newlines kept = newlines l).
Proof.
  split.
  - intros l kept open H.
    induction H using outside_comment_mut
      with (P0 := fun l kept open _ => newlines kept = newlines l).
    + reflexivity.
    + rewrite !newlines_app, IHoutside_comment. reflexivity.
    + apply newlines_idemp.
    + rewrite !newlines_app, newlines_idemp, IHoutside_comment. reflexivity.
  - intros l kept open H.
    induction H using inside_comment_mut
      with (P := fun l kept open _ => newlines kept = newlines l).
    + reflexivity.
    + rewrite !newlines_app, IHinside_comment. reflexivity.
    + apply newlines_idemp.
    + rewrite !newlines_app, newlines_idemp, IHinside_comment. reflexivity.
Qed.

(** C10. The string that [strip_multiline_comments] leaves behind, whether
    it returns or throws, has the newline characters of the input: as many,
    and so every line keeps its number. *)
Theorem strip_multiline_comments_keeps_newlines (allow_unterminated : bool)
    (str : list ascii) :
  count_newlines (strip_multiline_comments allow_unterminated str).2
  = count_newlines str.
Proof.
  rewrite strip_multiline_comments_run. cbn [snd]. unfold count_newlines.
  f_equal. apply (proj1 newlines_kept str _ (strip_chars false str).2).
  apply (strip_chars_complete (List.length str)). lia.
Qed.

(** * Further properties *)

(** ** Whitespace and zero stripping *)

Lemma find_last_not_of_spec (chars s : list ascii) :
  match find_last_not_of chars s with
  | Some i =>
      exists c, s !! i = Some c /\ in_chars chars c = false
                /\ all_in chars (drop (S i) s) = true
  | None => all_in chars s = true
  end.
Proof.
  induction s as [|c s IH]; [reflexivity|].
  cbn [find_last_not_of].
  destruct (find_last_not_of chars s) as [i|].
  - destruct IH as (d & Hd & Hnot & Hall). exists d. auto.
  - destruct (in_chars chars c) eqn:Hc.
    + unfold all_in in *. cbn [forallb]. rewrite Hc, IH. reflexivity.
    + exists c. auto.
Qed.

Lemma find_first_not_of_spec (chars s : list ascii) :
  match find_first_not_of chars s with
  | Some i =>
      exists c, s !! i = Some c /\ in_chars chars c = false
                /\ all_in chars (take i s) = true
  | None => all_in chars s = true
  end.
Proof.
  induction s as [|c s IH]; [reflexivity|].
  cbn [find_first_not_of].
  destruct (in_chars chars c) eqn:Hc.
  - destruct (find_first_not_of chars s) as [i|]; cbn [fmap option_fmap option_map].
    + destruct IH as (d & Hd & Hnot & Hall). exists d.
      unfold all_in in *. cbn [take forallb]. rewrite Hc, Hall. auto.
    + unfold all_in in *. cbn [forallb]. rewrite Hc, IH. reflexivity.
  - exists c. auto.
Qed.

Lemma all_in_lookup (chars s : list ascii) (i : nat) (c : ascii) :
  all_in chars s = true -> s !! i = Some c -> in_chars chars c = true.
Proof.
  unfold all_in. rewrite forallb_forall. intros Hall Hc.
  apply Hall, list_elem_of_In, (list_elem_of_lookup_2 _ i). exact Hc.
Qed.

Lemma resize_shrink (s : list ascii) (n : nat) :
  (n <= List.length s)%nat -> resize s n = take n s.
Proof.
  intros Hn. unfold resize.
  replace (n - List.length s)%nat with 0%nat by lia. apply app_nil_r.
Qed.

Lemma in_whitespace_chars (c : ascii) :
  in_chars whitespace_chars c
  = Ascii.eqb c " " || Ascii.eqb c "009" || Ascii.eqb c "013"
    || Ascii.eqb c "010".
Proof.
  unfold in_chars, whitespace_chars. cbn [existsb].
  rewrite orb_false_r, !orb_assoc. reflexivity.
Qed.

(** A string of whitespace only is emptied by the fallback branch of the
    strip functions, and an empty one is left as it is. *)
Lemma whitespace_fallback (s : list ascii) :
  all_in whitespace_chars s = true ->
  (if negb (string_empty s) && starts_with_whitespace s
   then resize s 0 else s) = [].
Proof.
  intros Hall. destruct s as [|c s]; [reflexivity|].
  pose proof (all_in_lookup _ _ 0%nat c Hall eq_refl) as Hc.
  rewrite in_whitespace_chars in Hc.
  cbn [string_empty negb andb].
  change (starts_with_whitespace (c :: s))
    with (Ascii.eqb c " " || Ascii.eqb c "009" || Ascii.eqb c "013"
          || Ascii.eqb c "010").
  rewrite Hc. reflexivity.
Qed.

(** [strip_trailing_whitespace] removes a suffix of whitespace, and all of
    it: what is left does not end in whitespace. *)
Theorem strip_trailing_whitespace_removes_suffix (s : list ascii) :
  exists removed : list ascii,
    s = strip_trailing_whitespace s ++ removed
    /\ all_in whitespace_chars removed = true
    /\ forall c, last (strip_trailing_whitespace s) = Some c ->
                 in_chars whitespace_chars c = false.
Proof.
  unfold strip_trailing_whitespace.
  pose proof (find_last_not_of_spec whitespace_chars s) as H.
  destruct (find_last_not_of whitespace_chars s) as [i|].
  - destruct H as (d & Hd & Hnot & Hall).
    pose proof (lookup_lt_Some _ _ _ Hd) as Hlt.
    rewrite resize_shrink by lia.
    replace (i + 1)%nat with (S i) by lia.
    exists (drop (S i) s). split; [symmetry; apply take_drop|].
    split; [exact Hall|].
    intros c. rewrite (take_S_r _ _ _ Hd), last_snoc. congruence.
  - rewrite (whitespace_fallback s H). exists s.
    split; [reflexivity|]. split; [exact H|]. discriminate.
Qed.

(** [strip_leading_whitespace] removes a prefix of whitespace, and all of
    it: what is left does not start with whitespace. *)
Theorem strip_leading_whitespace_removes_prefix (s : list ascii) :
  exists removed : list ascii,
    s = removed ++ strip_leading_whitespace s
    /\ all_in whitespace_chars removed = true
    /\ forall c, head (strip_leading_whitespace s) = Some c ->
                 in_chars whitespace_chars c = false.
Proof.
  unfold strip_leading_whitespace.
  pose proof (find_first_not_of_spec whitespace_chars s) as H.
  destruct (find_first_not_of whitespace_chars s) as [i|].
  - destruct H as (d & Hd & Hnot & Hall).
    unfold substr_from.
    exists (take i s). split; [symmetry; apply take_drop|].
    split; [exact Hall|].
    intros c. rewrite (drop_S _ _ _ Hd). cbn [head]. congruence.
  - rewrite (whitespace_fallback s H). exists s.
    split; [symmetry; apply app_nil_r|]. split; [exact H|]. discriminate.
Qed.

(** [strip_trailing_zeroes] removes a suffix of zero characters, and all
    of it. *)
Theorem strip_trailing_zeroes_removes_suffix (s : list ascii) :
  exists removed : list ascii,
    s = strip_trailing_zeroes s ++ removed
    /\ removed = replicate (List.length removed) "000"%char
    /\ forall c, last (strip_trailing_zeroes s) = Some c -> c <> "000"%char.
Proof.
  assert (forall c, in_chars ["000"%char] c = Ascii.eqb c "000") as Hin.
  { intros c. unfold in_chars. cbn [existsb]. apply orb_false_r. }
  assert (forall l, all_in ["000"%char] l = true ->
                    l = replicate (List.length l) "000"%char) as Hzero.
  { induction l as [|c l IH]; [reflexivity|].
    unfold all_in. cbn [forallb]. rewrite Hin. intros H.
    apply andb_prop in H as [Hc Hl]. apply Ascii.eqb_eq in Hc. subst c.
    cbn [List.length replicate]. f_equal. exact (IH Hl). }
  unfold strip_trailing_zeroes.
  pose proof (find_last_not_of_spec ["000"%char] s) as H.
  destruct (find_last_not_of ["000"%char] s) as [i|].
  - destruct H as (d & Hd & Hnot & Hall).
    pose proof (lookup_lt_Some _ _ _ Hd) as Hlt.
    rewrite resize_shrink by lia.
    replace (i + 1)%nat with (S i) by lia.
    exists (drop (S i) s). split; [symmetry; apply take_drop|].
    split; [exact (Hzero _ Hall)|].
    intros c. rewrite (take_S_r _ _ _ Hd), last_snoc.
    intros [= <-] ->. rewrite Hin in Hnot. discriminate.
  - exists s. destruct s as [|c s].
    + split; [reflexivity|]. split; [reflexivity|]. discriminate.
    + pose proof (all_in_lookup _ _ 0%nat c H eq_refl) as Hc.
      rewrite Hin in Hc.
      cbn [string_empty negb andb].
      change (char_at (c :: s) 0) with c. rewrite Hc.
      split; [reflexivity|]. split; [exact (Hzero _ H)|]. discriminate.
Qed.

Lemma all_in_find_first (chars s : list ascii) :
  all_in chars s = true -> find_first_not_of chars s = None.
Proof.
  intros Hall.
  pose proof (find_first_not_of_spec chars s) as H.
  destruct (find_first_not_of chars s) as [i|]; [|reflexivity].
  destruct H as (c & Hc & Hnot & _).
  rewrite (all_in_lookup _ _ _ _ Hall Hc) in Hnot. discriminate.
Qed.

Lemma find_first_before_last (chars s : list ascii) (first last_ : nat) :
  find_first_not_of chars s = Some first ->
  find_last_not_of chars s = Some last_ ->
  (first <= last_ < List.length s)%nat.
Proof.
  intros Hf Hl.
  pose proof (find_first_not_of_spec chars s) as H1. rewrite Hf in H1.
  pose proof (find_last_not_of_spec chars s) as H2. rewrite Hl in H2.
  destruct H1 as (c & Hc & Hcn & Hbefore).
  destruct H2 as (d & Hd & Hdn & Hafter).
  split; [|exact (lookup_lt_Some _ _ _ Hd)].
  destruct (Nat.le_gt_cases first last_) as [|Hgt]; [assumption|].
  assert (take first s !! last_ = Some d) as Hd'
    by (rewrite lookup_take_lt by lia; exact Hd).
  rewrite (all_in_lookup _ _ _ _ Hbefore Hd') in Hdn. discriminate.
Qed.

Lemma find_first_not_of_take (chars s : list ascii) (i n : nat) :
  find_first_not_of chars s = Some i -> (i < n)%nat ->
  find_first_not_of chars (take n s) = Some i.
Proof.
  revert i n. induction s as [|c s IH]; intros i n Hf Hn; [discriminate|].
  destruct n as [|n]; [lia|].
  cbn [take find_first_not_of] in *.
  destruct (in_chars chars c); [|exact Hf].
  destruct (find_first_not_of chars s) as [j|] eqn:Hj; [|discriminate].
  cbn [fmap option_fmap option_map] in Hf. injection Hf as <-.
  rewrite (IH j n eq_refl ltac:(lia)). reflexivity.
Qed.

(** What [strip_whitespace] computes when the string holds a character
    that is not whitespace: the characters from the first to the last such
    character. *)
Lemma strip_whitespace_found (s : list ascii) (first last_ : nat) :
  find_first_not_of whitespace_chars s = Some first ->
  find_last_not_of whitespace_chars s = Some last_ ->
  strip_whitespace s = take (last_ - first + 1) (drop first s).
Proof.
  intros Hf Hl. pose proof (find_first_before_last _ _ _ _ Hf Hl) as Hle.
  unfold strip_whitespace. rewrite Hf, Hl.
  destruct (Nat.ltb_spec 0 first) as [Hpos|Hzero]; [reflexivity|].
  assert (first = 0)%nat as -> by lia.
  rewrite resize_shrink by lia. rewrite drop_0. f_equal. lia.
Qed.

Lemma strip_whitespace_blank (s : list ascii) :
  all_in whitespace_chars s = true -> strip_whitespace s = [].
Proof.
  intros Hall. unfold strip_whitespace.
  rewrite (all_in_find_first _ _ Hall). apply whitespace_fallback, Hall.
Qed.

Lemma find_cases (chars s : list ascii) :
  (exists first last_,
      find_first_not_of chars s = Some first
      /\ find_last_not_of chars s = Some last_)
  \/ all_in chars s = true.
Proof.
  pose proof (find_first_not_of_spec chars s) as H1.
  pose proof (find_last_not_of_spec chars s) as H2.
  destruct (find_last_not_of chars s) as [e|]; [|right; exact H2].
  destruct (find_first_not_of chars s) as [b|]; [left; eauto|].
  destruct H2 as (d & Hd & Hdn & _).
  rewrite (all_in_lookup _ _ _ _ H1 Hd) in Hdn. discriminate.
Qed.

(** [strip_whitespace] removes a prefix and a suffix of whitespace, and all
    of both: what is left neither starts nor ends with whitespace. *)
Theorem strip_whitespace_removes_both_ends (s : list ascii) :
  exists before after : list ascii,
    s = before ++ strip_whitespace s ++ after
    /\ all_in whitespace_chars before = true
    /\ all_in whitespace_chars after = true
    /\ clean_ends whitespace_chars (strip_whitespace s).
Proof.
  destruct (find_cases whitespace_chars s) as [(b & e & Hb & He)|Hall].
  - pose proof (find_first_before_last _ _ _ _ Hb He) as Hle.
    rewrite (strip_whitespace_found s b e Hb He).
    pose proof (find_first_not_of_spec whitespace_chars s) as H1.
    pose proof (find_last_not_of_spec whitespace_chars s) as H2.
    rewrite Hb in H1. rewrite He in H2.
    destruct H1 as (c & Hc & Hcn & Hbefore).
    destruct H2 as (d & Hd & Hdn & Hafter).
    exists (take b s), (drop (S e) s).
    split; [|split; [exact Hbefore|split; [exact Hafter|]]].
    + rewrite <- (take_drop b s) at 1. f_equal.
      rewrite <- (take_drop (e - b + 1) (drop b s)) at 1. f_equal.
      rewrite drop_drop. f_equal. lia.
    + split; intros x Hx.
      * rewrite (drop_S _ _ _ Hc) in Hx.
        replace (e - b + 1)%nat with (S (e - b)) in Hx by lia.
        cbn [take head] in Hx. congruence.
      * rewrite last_lookup, length_take, length_drop in Hx.
        rewrite lookup_take_lt, lookup_drop in Hx by lia.
        replace (b + _)%nat with e in Hx by lia. congruence.
  - rewrite (strip_whitespace_blank s Hall). exists s, [].
    split; [rewrite app_nil_r; reflexivity|].
    split; [exact Hall|]. split; [reflexivity|].
    split; intros x Hx; discriminate.
Qed.

(** [strip_whitespace] does what [strip_trailing_whitespace] followed by
    [strip_leading_whitespace] does. *)
Theorem strip_whitespace_is_trailing_then_leading (s : list ascii) :
  strip_whitespace s
  = strip_leading_whitespace (strip_trailing_whitespace s).
Proof.
  destruct (find_cases whitespace_chars s) as [(b & e & Hb & He)|Hall].
  - pose proof (find_first_before_last _ _ _ _ Hb He) as Hle.
    rewrite (strip_whitespace_found s b e Hb He).
    unfold strip_trailing_whitespace. rewrite He.
    rewrite resize_shrink by lia.
    unfold strip_leading_whitespace.
    rewrite (find_first_not_of_take _ _ b (e + 1) Hb) by lia.
    unfold substr_from. rewrite take_drop_commute. do 2 f_equal. lia.
  - rewrite (strip_whitespace_blank s Hall).
    unfold strip_trailing_whitespace.
    pose proof (find_last_not_of_spec whitespace_chars s) as H2.
    destruct (find_last_not_of whitespace_chars s) as [e|].
    + destruct H2 as (d & Hd & Hdn & _).
      rewrite (all_in_lookup _ _ _ _ Hall Hd) in Hdn. discriminate.
    + rewrite (whitespace_fallback s Hall). reflexivity.
Qed.

Lemma find_last_not_of_clean (chars s : list ascii) (c : ascii) :
  last s = Some c -> in_chars chars c = false ->
  find_last_not_of chars s = Some (List.length s - 1)%nat.
Proof.
  induction s as [|x s IH]; [discriminate|].
  destruct s as [|y s].
  - intros [= ->] Hc. cbn [find_last_not_of]. rewrite Hc. reflexivity.
  - intros Hl Hc. change (last (x :: y :: s)) with (last (y :: s)) in Hl.
    change (find_last_not_of chars (x :: y :: s))
      with (match find_last_not_of chars (y :: s) with
            | Some i => Some (S i)
            | None => if in_chars chars x then None else Some 0%nat
            end).
    rewrite (IH Hl Hc). cbn [List.length]. f_equal. lia.
Qed.

(** A string that neither starts nor ends with whitespace is left as it
    is. *)
Lemma strip_whitespace_clean (s : list ascii) :
  clean_ends whitespace_chars s -> strip_whitespace s = s.
Proof.
  intros [Hhead Hlast]. destruct s as [|c s]; [reflexivity|].
  destruct (last (c :: s)) as [d|] eqn:Hd;
    [|rewrite last_None in Hd; discriminate].
  rewrite (strip_whitespace_found (c :: s) 0 (List.length (c :: s) - 1)).
  - rewrite drop_0. apply take_ge. cbn [List.length]. lia.
  - cbn [find_first_not_of]. rewrite (Hhead c eq_refl). reflexivity.
  - exact (find_last_not_of_clean _ _ d Hd (Hlast d eq_refl)).
Qed.

(** [strip_whitespace] is idempotent. *)
Theorem strip_whitespace_idempotent (s : list ascii) :
  strip_whitespace (strip_whitespace s) = strip_whitespace s.
Proof.
  destruct (find_cases whitespace_chars s) as [(b & e & Hb & He)|Hall].
  - apply strip_whitespace_clean.
    pose proof (find_first_before_last _ _ _ _ Hb He) as Hle.
    rewrite (strip_whitespace_found s b e Hb He).
    pose proof (find_first_not_of_spec whitespace_chars s) as H1.
    pose proof (find_last_not_of_spec whitespace_chars s) as H2.
    rewrite Hb in H1. rewrite He in H2.
    destruct H1 as (c & Hc & Hcn & _). destruct H2 as (d & Hd & Hdn & _).
    split; intros x Hx.
    + rewrite (drop_S _ _ _ Hc) in Hx.
      replace (e - b + 1)%nat with (S (e - b)) in Hx by lia.
      cbn [take head] in Hx. congruence.
    + rewrite last_lookup, length_take, length_drop in Hx.
      rewrite lookup_take_lt, lookup_drop in Hx by lia.
      replace (b + _)%nat with e in Hx by lia. congruence.
  - rewrite (strip_whitespace_blank s Hall). reflexivity.
Qed.

(** ** join *)

Lemma join_with_from_nonempty (delim ret : list ascii)
    (items : list (list ascii)) :
  ret <> [] ->
  fold_left
    (fun ret item =>
       (if negb (string_empty ret) then ret ++ delim else ret) ++ item)
    items ret
  = ret ++ concat (map (fun item => delim ++ item) items).
Proof.
  revert ret. induction items as [|x xs IH]; intros ret Hret.
  - cbn. rewrite app_nil_r. reflexivity.
  - cbn [fold_left map concat].
    destruct ret as [|c ret]; [congruence|].
    cbn [string_empty negb].
    rewrite IH by discriminate.
    rewrite <- !app_assoc. reflexivity.
Qed.

(** [join(items, delim)] puts the delimiter between the items, except that
    empty items at the front are dropped without a delimiter: the result is
    that of the items from the first non-empty one. *)
Theorem join_with_drops_leading_empty (items : list (list ascii))
    (delim : list ascii) :
  join_with items delim = intercalate delim (drop_leading_empty items).
Proof.
  unfold join_with. induction items as [|x xs IH]; [reflexivity|].
  cbn [fold_left drop_leading_empty string_empty negb app].
  destruct x as [|c x].
  - cbn [string_empty]. exact IH.
  - cbn [string_empty intercalate].
    apply join_with_from_nonempty. discriminate.
Qed.

Lemma join_is_concat (items : list (list ascii)) :
  join items = concat items.
Proof.
  unfold join.
  enough (forall ret, fold_left (fun ret item => ret ++ item) items ret
                      = ret ++ concat items) as H by exact (H []).
  induction items as [|x xs IH]; intros ret.
  - cbn. rewrite app_nil_r. reflexivity.
  - cbn [fold_left concat]. rewrite IH, app_assoc. reflexivity.
Qed.

(** Joining with an empty delimiter is joining without one, and both give
    the concatenation of the items. *)
Theorem join_with_empty_delimiter (items : list (list ascii)) :
  join_with items [] = join items /\ join items = concat items.
Proof.
  split; [|apply join_is_concat].
  rewrite join_is_concat. unfold join_with.
  enough (forall ret,
            fold_left
              (fun ret item =>
                 (if negb (string_empty ret) then ret ++ [] else ret) ++ item)
              items ret
            = ret ++ concat items) as H by exact (H []).
  induction items as [|x xs IH]; intros ret.
  - cbn. rewrite app_nil_r. reflexivity.
  - cbn [fold_left concat]. rewrite IH, app_assoc.
    destruct (negb (string_empty ret)); rewrite ?app_nil_r; reflexivity.
Qed.

(** ** strip_multiline_comments: further properties *)

(** A text without a comment opener is left as it is, and the call returns
    in either mode. *)
Theorem strip_multiline_comments_without_opener (allow_unterminated : bool)
    (str : list ascii) :
  has_pair "/" "*" str = false ->
  strip_multiline_comments allow_unterminated str = (Returns tt, str).
Proof.
  intros H. rewrite strip_multiline_comments_run, (strip_chars_text str H).
  cbn [fst snd]. rewrite andb_false_r. reflexivity.
Qed.

Lemma strip_multiline_comments_without_opener_witness :
  strip_multiline_comments false (list_ascii_of_string "a / b * c */ d")
  = (Returns tt, list_ascii_of_string "a / b * c */ d").
Proof.
  apply strip_multiline_comments_without_opener. reflexivity.
Defined.

Lemma newlines_length (l : list ascii) :
  (List.length (newlines l) <= List.length l)%nat.
Proof. apply List.filter_length_le. Qed.

Lemma kept_length :
  (forall l kept open,
      outside_comment l kept open ->
      (List.length kept <= List.length l)%nat)
  /\ (forall l kept open,
        inside_comment l kept open ->
        (List.length kept <= List.length l)%nat).
Proof.
  split.
  - intros l kept open H.
    induction H using outside_comment_mut
      with (P0 := fun l kept open _ =>
                    (List.length kept <= List.length l)%nat).
    + lia.
    + rewrite !length_app. lia.
    + apply newlines_length.
    + pose proof (newlines_length c). rewrite !length_app. lia.
  - intros l kept open H.
    induction H using inside_comment_mut
      with (P := fun l kept open _ =>
                   (List.length kept <= List.length l)%nat).
    + lia.
    + rewrite !length_app. lia.
    + apply newlines_length.
    + pose proof (newlines_length c). rewrite !length_app. lia.
Qed.

(** The two modes leave the same string behind, also when the strict mode
    throws: the throw comes after the string was rewritten. The string left
    is never longer than the input. *)
Theorem strip_multiline_comments_modes_agree (str : list ascii) :
  (strip_multiline_comments false str).2
  = (strip_multiline_comments true str).2
  /\ (List.length (strip_multiline_comments false str).2
      <= List.length str)%nat.
Proof.
  rewrite !strip_multiline_comments_run. cbn [snd].
  split; [reflexivity|].
  apply (proj1 kept_length str _ (strip_chars false str).2).
  apply (strip_chars_complete (List.length str)). lia.
Qed.

(** The characters [a b] do not meet where [l1] ends and [l2] starts. *)
Lemma has_pair_app (a b : ascii) (l1 l2 : list ascii) :
  has_pair a b l1 = false -> has_pair a b l2 = false ->
  ~ (last l1 = Some a /\ head l2 = Some b) ->
  has_pair a b (l1 ++ l2) = false.
Proof.
  induction l1 as [|x l1 IH]; intros H1 H2 Hb; [exact H2|].
  destruct l1 as [|y l1].
  - cbn [app]. rewrite has_pair_cons.
    destruct l2 as [|z l2]; [reflexivity|].
    rewrite H2, orb_false_r.
    destruct (Ascii.eqb_spec x a) as [->|]; [|reflexivity].
    destruct (Ascii.eqb_spec z b) as [->|]; [|reflexivity].
    exfalso. apply Hb. split; reflexivity.
  - rewrite has_pair_cons in H1. apply orb_false_elim in H1 as [Hxy H1].
    change ((x :: y :: l1) ++ l2) with (x :: y :: (l1 ++ l2)).
    rewrite has_pair_cons, Hxy.
    change (y :: (l1 ++ l2)) with ((y :: l1) ++ l2).
    rewrite IH; [reflexivity|assumption|assumption|].
    intros [Hl Hh]. apply Hb. split; [|exact Hh]. exact Hl.
Qed.

Lemma outside_comment_after_text (t l kept : list ascii) (open : bool) :
  has_pair "/" "*" t = false ->
  ~ (last t = Some "/"%char /\ head l = Some "*"%char) ->
  outside_comment l kept open ->
  outside_comment (t ++ l) (t ++ kept) open.
Proof.
  intros Ht Hb H. inversion H as [t2 Ht2|t2 rest kept' open' Ht2 Hin]; subst.
  - apply text_to_end. apply has_pair_app; assumption.
  - replace (t ++ t2 ++ comment_open ++ rest)
      with ((t ++ t2) ++ comment_open ++ rest)
      by (rewrite <- app_assoc; reflexivity).
    rewrite (app_assoc t t2 kept').
    apply text_then_comment; [|assumption].
    apply has_pair_app; [assumption|assumption|].
    intros [Hl Hh]. apply Hb. split; [exact Hl|].
    destruct t2; [|exact Hh]. cbn in Hh. discriminate.
Qed.

Lemma last_app_nonempty (l1 l2 : list ascii) :
  l2 <> [] -> last (l1 ++ l2) = last l2.
Proof.
  intros H. rewrite last_app. destruct (last l2) eqn:E; [reflexivity|].
  rewrite last_None in E. contradiction.
Qed.

(** Texts that end outside a comment compose: the structure of [l1 ++ l2]
    is that of [l1] followed by that of [l2], unless a slash at the end of
    [l1] meets a star at the start of [l2]. *)
Lemma outside_comment_app (l2 kept2 : list ascii) (open2 : bool) :
  outside_comment l2 kept2 open2 ->
  (forall l1 kept1 open1,
      outside_comment l1 kept1 open1 -> open1 = false ->
      ~ (last l1 = Some "/"%char /\ head l2 = Some "*"%char) ->
      outside_comment (l1 ++ l2) (kept1 ++ kept2) open2)
  /\ (forall l1 kept1 open1,
        inside_comment l1 kept1 open1 -> open1 = false ->
        ~ (last l1 = Some "/"%char /\ head l2 = Some "*"%char) ->
        inside_comment (l1 ++ l2) (kept1 ++ kept2) open2).
Proof.
  intros H2.
  assert (forall rest l, rest <> [] ->
            ~ (last (l ++ rest) = Some "/"%char /\ head l2 = Some "*"%char) ->
            ~ (last rest = Some "/"%char /\ head l2 = Some "*"%char)) as Hrest.
  { intros rest l Hne Hb. rewrite last_app_nonempty in Hb; assumption. }
  split.
  - intros l1 kept1 open1 H1.
    induction H1 using outside_comment_mut
      with (P0 := fun l1 kept1 open1 _ =>
                    open1 = false ->
                    ~ (last l1 = Some "/"%char /\ head l2 = Some "*"%char) ->
                    inside_comment (l1 ++ l2) (kept1 ++ kept2) open2).
    + intros _ Hb. apply outside_comment_after_text; assumption.
    + intros Ho Hb. rewrite <- !app_assoc.
      apply text_then_comment; [assumption|].
      apply IHoutside_comment; [exact Ho|].
      destruct rest as [|x rest].
      * intros [Hl _]. cbn in Hl. discriminate Hl.
      * rewrite app_assoc in Hb.
        apply (Hrest (x :: rest) (t ++ comment_open) ltac:(discriminate) Hb).
    + discriminate.
    + intros Ho Hb. rewrite <- !app_assoc.
      apply comment_then_text; [assumption|].
      apply IHoutside_comment; [exact Ho|].
      destruct rest as [|x rest].
      * intros [Hl _]. cbn in Hl. discriminate Hl.
      * rewrite app_assoc in Hb.
        apply (Hrest (x :: rest) (c ++ comment_close) ltac:(discriminate) Hb).
  - intros l1 kept1 open1 H1.
    induction H1 using inside_comment_mut
      with (P := fun l1 kept1 open1 _ =>
                   open1 = false ->
                   ~ (last l1 = Some "/"%char /\ head l2 = Some "*"%char) ->
                   outside_comment (l1 ++ l2) (kept1 ++ kept2) open2).
    + intros _ Hb. apply outside_comment_after_text; assumption.
    + intros Ho Hb. rewrite <- !app_assoc.
      apply text_then_comment; [assumption|].
      apply IHinside_comment; [exact Ho|].
      destruct rest as [|x rest].
      * intros [Hl _]. cbn in Hl. discriminate Hl.
      * rewrite app_assoc in Hb.
        apply (Hrest (x :: rest) (t ++ comment_open) ltac:(discriminate) Hb).
    + discriminate.
    + intros Ho Hb. rewrite <- !app_assoc.
      apply comment_then_text; [assumption|].
      apply IHinside_comment; [exact Ho|].
      destruct rest as [|x rest].
      * intros [Hl _]. cbn in Hl. discriminate Hl.
      * rewrite app_assoc in Hb.
        apply (Hrest (x :: rest) (c ++ comment_close) ltac:(discriminate) Hb).
Qed.

(** Stripping composes over concatenation. When the strict mode returns on
    [str1], so that [str1] ends outside a comment, and no slash at the end
    of [str1] meets a star at the start of [str2], stripping [str1 ++ str2]
    leaves what stripping [str1] leaves followed by what stripping [str2]
    leaves, with the outcome of stripping [str2]. *)
Theorem strip_multiline_comments_app (allow_unterminated : bool)
    (str1 str2 : list ascii) :
  (strip_multiline_comments false str1).1 = Returns tt ->
  ~ (last str1 = Some "/"%char /\ head str2 = Some "*"%char) ->
  strip_multiline_comments allow_unterminated (str1 ++ str2)
  = ((strip_multiline_comments allow_unterminated str2).1,
     (strip_multiline_comments allow_unterminated str1).2
     ++ (strip_multiline_comments allow_unterminated str2).2).
Proof.
  rewrite !strip_multiline_comments_run. cbn [fst snd negb andb].
  intros Hret Hb.
  assert ((strip_chars false str1).2 = false) as Hopen
    by (destruct (strip_chars false str1).2; [discriminate|reflexivity]).
  pose proof (proj1 (strip_chars_complete (List.length str1) str1 ltac:(lia)))
    as H1.
  pose proof (proj1 (strip_chars_complete (List.length str2) str2 ltac:(lia)))
    as H2.
  pose proof (proj1 (outside_comment_app _ _ _ H2) _ _ _ H1 Hopen Hb) as H.
  rewrite (proj1 strip_chars_sound _ _ _ H). reflexivity.
Qed.

Lemma strip_multiline_comments_app_witness :
  strip_multiline_comments false
    (list_ascii_of_string "a/*x*/" ++ list_ascii_of_string "b/*y*/c")
  = (Returns tt, list_ascii_of_string "a" ++ list_ascii_of_string "bc").
Proof.
  rewrite (strip_multiline_comments_app false
             (list_ascii_of_string "a/*x*/")
             (list_ascii_of_string "b/*y*/c")).
  - reflexivity.
  - reflexivity.
  - intros [_ H]. discriminate.
Defined.

(** ** StringReader: the cursor *)

Lemma size_add_nonneg (a b : Z) : 0 <= size_add a b.
Proof. apply size_add_range. Qed.

Lemma keeps_cursor_read_then_advance {A} (f : StringReader.t -> outcome A)
    (n : Z) (advance : bool) :
  (forall r a, f r = Returns a ->
               size_add (StringReader.offset r) n <= StringReader.length r) ->
  keeps_cursor_in_view
    (ret ← const_method f;
     when advance (modify (fun r =>
       StringReader.set_offset r (size_add (StringReader.offset r) n)));;
     mret ret).
Proof.
  intros Hf r r' a Hin Hrun.
  rewrite read_then_advance_run in Hrun.
  destruct (f r) as [a'| |] eqn:E; try discriminate.
  injection Hrun as <- <-.
  destruct advance; [|auto].
  unfold cursor_in_view. cbn [StringReader.set_offset StringReader.offset
    StringReader.data StringReader.length].
  split; [|auto]. split; [apply size_add_nonneg|exact (Hf r a' E)].
Qed.

Lemma keeps_cursor_fmap {A B} (h : A -> B) (m : method StringReader.t A) :
  keeps_cursor_in_view m -> keeps_cursor_in_view (h <$> m).
Proof.
  intros Hm r r' b Hin Hrun.
  unfold fmap, method_FMap, mbind, method_MBind, method_bind in Hrun.
  destruct (m r) as [[a| |] r1] eqn:E; try discriminate.
  injection Hrun as <- <-. exact (Hm r r1 a Hin E).
Qed.

Lemma pgetv_returns (r : StringReader.t) (offset size p : Z) :
  StringReader.pgetv r offset size = Returns p ->
  size_add offset size <= StringReader.length r.
Proof.
  unfold StringReader.pgetv.
  destruct (size_add offset size >? StringReader.length r) eqn:E;
    [discriminate|].
  intros _. rewrite Z.gtb_ltb in E. apply Z.ltb_ge in E. exact E.
Qed.

Lemma narrow_check_returns {A} (r : StringReader.t) (offset n : Z)
    (k : outcome A) (a : A) :
  (if size_add offset n >? StringReader.length r
   then Throws (out_of_range "end of string") else k) = Returns a ->
  size_add offset n <= StringReader.length r.
Proof.
  destruct (size_add offset n >? StringReader.length r) eqn:E;
    [discriminate|].
  intros _. rewrite Z.gtb_ltb in E. apply Z.ltb_ge in E. exact E.
Qed.

(** Every cursor read that returns leaves the cursor inside the view,
    [0 <= offset <= length], when it found it there, and changes neither the
    bytes nor the length: no sequence of reads moves the cursor out. This
    needs no assumption on the sizes asked for. *)
Theorem reads_keep_cursor_in_view :
  (forall size advance, keeps_cursor_in_view (StringReader.getv size advance))
  /\ (forall V (T : ctype V) advance size,
        keeps_cursor_in_view (StringReader.get T advance size))
  /\ (forall V (T : ctype V) count advance,
        keeps_cursor_in_view (StringReader.get_array T count advance))
  /\ (forall advance,
        keeps_cursor_in_view (StringReader.get_u24b advance)
        /\ keeps_cursor_in_view (StringReader.get_u24l advance)
        /\ keeps_cursor_in_view (StringReader.get_s24b advance)
        /\ keeps_cursor_in_view (StringReader.get_s24l advance)
        /\ keeps_cursor_in_view (StringReader.get_u48b advance)
        /\ keeps_cursor_in_view (StringReader.get_u48l advance)
        /\ keeps_cursor_in_view (StringReader.get_s48b advance)
        /\ keeps_cursor_in_view (StringReader.get_s48l advance)).
Proof.
  assert (forall advance,
            keeps_cursor_in_view (StringReader.get_u24b advance)) as H24b.
  { intros. apply keeps_cursor_read_then_advance.
    intros r a. apply narrow_check_returns. }
  assert (forall advance,
            keeps_cursor_in_view (StringReader.get_u24l advance)) as H24l.
  { intros. apply keeps_cursor_read_then_advance.
    intros r a. apply narrow_check_returns. }
  assert (forall advance,
            keeps_cursor_in_view (StringReader.get_u48b advance)) as H48b.
  { intros. apply keeps_cursor_read_then_advance.
    intros r a. apply narrow_check_returns. }
  assert (forall advance,
            keeps_cursor_in_view (StringReader.get_u48l advance)) as H48l.
  { intros. apply keeps_cursor_read_then_advance.
    intros r a. apply narrow_check_returns. }
  split; [|split; [|split]].
  - intros. apply keeps_cursor_read_then_advance.
    intros r a. apply pgetv_returns.
  - intros. apply keeps_cursor_read_then_advance.
    intros r a. unfold StringReader.pget.
    destruct (StringReader.pgetv r (StringReader.offset r) size) as [p| |] eqn:E;
      try discriminate.
    intros _. exact (pgetv_returns _ _ _ _ E).
  - intros. apply keeps_cursor_read_then_advance.
    intros r a. apply pgetv_returns.
  - intros advance.
    split; [apply H24b|]. split; [apply H24l|].
    split; [apply keeps_cursor_fmap, H24b|].
    split; [apply keeps_cursor_fmap, H24l|].
    split; [apply H48b|]. split; [apply H48l|].
    split; apply keeps_cursor_fmap; [apply H48b|apply H48l].
Qed.

Lemma get_in_bounds {V} (T : ctype V) (r : StringReader.t) :
  StringReader.wf r -> 0 <= sizeof T ->
  StringReader.offset r + sizeof T <= StringReader.length r ->
  StringReader.get T true (sizeof T) r
  = (Returns (from_bytes T (bytes_at r (StringReader.offset r) (sizeof T))),
     StringReader.set_offset r (StringReader.offset r + sizeof T)).
Proof.
  intros (Hlen & Hmax & Hoff) Hsz Hb. unfold is_size_t in Hoff.
  unfold StringReader.get. rewrite read_then_advance_run.
  unfold StringReader.pget. rewrite pgetv_in_bounds by lia.
  cbn [mbind outcome_MBind]. rewrite load_in_bounds by lia.
  cbn [mret outcome_MRet]. rewrite size_add_nowrap by lia. reflexivity.
Qed.

Lemma wf_set_offset (r : StringReader.t) (o : Z) :
  StringReader.wf r -> is_size_t o ->
  StringReader.wf (StringReader.set_offset r o).
Proof. intros (Hlen & Hmax & _) Ho. repeat split; try apply Hlen; auto; apply Ho. Qed.

(** [count] successive [get<T>] calls return the [count] elements of the
    array at the cursor, decoded one after the other, and leave the cursor
    where [get_array<T>(count)] leaves it, [count * sizeof(T)] further;
    [get_array] returns the pointer to the first element. *)
Theorem successive_gets_read_the_array {V} (T : ctype V) (count : nat) :
  forall r : StringReader.t,
    StringReader.wf r -> 0 <= sizeof T ->
    StringReader.offset r + Z.of_nat count * sizeof T
    <= StringReader.length r ->
    call_times count (StringReader.get T true (sizeof T)) r
    = (Returns
         (map (fun i : nat =>
                 from_bytes T
                   (bytes_at r (StringReader.offset r + Z.of_nat i * sizeof T)
                      (sizeof T)))
              (seq 0 count)),
       StringReader.set_offset r
         (StringReader.offset r + Z.of_nat count * sizeof T))
    /\ StringReader.get_array T (Z.of_nat count) true r
       = (Returns (StringReader.offset r),
          StringReader.set_offset r
            (StringReader.offset r + Z.of_nat count * sizeof T)).
Proof.
  intros r Hwf Hsz Hb. split.
  - revert r Hwf Hb. induction count as [|n IH]; intros r Hwf Hb.
    + cbn [call_times seq map]. destruct r as [d l o].
      cbn [StringReader.offset StringReader.set_offset StringReader.data
             StringReader.length].
      replace (o + Z.of_nat 0 * sizeof T) with o by lia. reflexivity.
    + pose proof Hwf as (Hlen & Hmax & Hoff). unfold is_size_t in Hoff.
      cbn [call_times]. unfold mbind, method_MBind, method_bind.
      rewrite get_in_bounds by (try assumption; nia).
      rewrite IH;
        [|apply wf_set_offset; [assumption|unfold is_size_t; nia]
         |cbn [StringReader.set_offset StringReader.offset StringReader.length];
          nia].
      unfold mret, method_MRet, method_ret.
      cbn [StringReader.set_offset StringReader.offset StringReader.data
             StringReader.length].
      f_equal.
      * f_equal. cbn [seq map]. f_equal.
        -- change (Z.of_nat 0) with 0.
           replace (StringReader.offset r + 0 * sizeof T)
             with (StringReader.offset r) by lia.
           reflexivity.
        -- rewrite <- seq_shift, map_map. apply map_ext. intros i.
           unfold bytes_at. cbn [StringReader.data].
           replace (StringReader.offset r + sizeof T + Z.of_nat i * sizeof T)
             with (StringReader.offset r + Z.of_nat (S i) * sizeof T) by lia.
           reflexivity.
      * f_equal. lia.
  - destruct Hwf as (Hlen & Hmax & Hoff). unfold is_size_t in Hoff.
    unfold StringReader.get_array. rewrite read_then_advance_run.
    unfold StringReader.pget_array.
    assert (size_mul (Z.of_nat count) (sizeof T) = Z.of_nat count * sizeof T)
      as ->.
    { unfold size_mul. apply Z.mod_small. unfold SIZE_MAX in *. nia. }
    rewrite pgetv_in_bounds by nia.
    rewrite size_add_nowrap by nia. reflexivity.
Qed.

Lemma successive_gets_read_the_array_witness :
  let r := StringReader.of_string
             [Byte.x01; Byte.x02; Byte.x03; Byte.x04; Byte.x05] 1 in
  call_times 2 (StringReader.get be_uint16_t true (sizeof be_uint16_t)) r
  = (Returns [0x0203; 0x0405], StringReader.set_offset r 5).
Proof.
  intros r.
  refine (proj1 (successive_gets_read_the_array be_uint16_t 2 r _ _ _)).
  - unfold StringReader.wf, is_size_t, SIZE_MAX. simpl. lia.
  - simpl. lia.
  - simpl. lia.
Defined.

Lemma le_value_app (a b : list byte) :
  le_value (a ++ b)
  = le_value a + 2 ^ (8 * Z.of_nat (List.length a)) * le_value b.
Proof.
  induction a as [|x a IH].
  - cbn [app List.length]. change (le_value []) with 0.
    change (2 ^ (8 * Z.of_nat 0)) with 1. lia.
  - change (le_value ((x :: a) ++ b))
      with (byte.unsigned x + 256 * le_value (a ++ b)).
    change (le_value (x :: a)) with (byte.unsigned x + 256 * le_value a).
    rewrite IH.
    replace (8 * Z.of_nat (List.length (x :: a)))
      with (8 + 8 * Z.of_nat (List.length a)) by (cbn [List.length]; lia).
    rewrite Z.pow_add_r by lia. change (2 ^ 8) with 256. lia.
Qed.

Lemma be_value_app (a b : list byte) :
  be_value (a ++ b)
  = be_value a * 2 ^ (8 * Z.of_nat (List.length b)) + be_value b.
Proof.
  rewrite <- (rev_involutive (a ++ b)), <- le_value_rev, rev_app_distr.
  rewrite le_value_app, !le_value_rev, !rev_involutive, length_rev. lia.
Qed.

Lemma bytes_at_split (r : StringReader.t) (offset n m : Z) :
  0 <= offset -> 0 <= n -> 0 <= m ->
  bytes_at r offset (n + m)
  = bytes_at r offset n ++ bytes_at r (offset + n) m.
Proof.
  intros Ho Hn Hm. unfold bytes_at.
  replace (Z.to_nat (n + m)) with (Z.to_nat n + Z.to_nat m)%nat by lia.
  rewrite <- take_take_drop, drop_drop. do 3 f_equal. lia.
Qed.

Lemma get_u24_in_bounds (r : StringReader.t) :
  StringReader.wf r ->
  StringReader.offset r + 3 <= StringReader.length r ->
  StringReader.get_u24b true r
  = (Returns (be_value (bytes_at r (StringReader.offset r) 3)),
     StringReader.set_offset r (StringReader.offset r + 3))
  /\ StringReader.get_u24l true r
     = (Returns (le_value (bytes_at r (StringReader.offset r) 3)),
        StringReader.set_offset r (StringReader.offset r + 3)).
Proof.
  intros Hwf Hb. pose proof Hwf as (Hlen & Hmax & Hoff).
  unfold is_size_t in Hoff.
  destruct (pget_24_in_bounds r (StringReader.offset r) Hwf ltac:(lia) Hb)
    as (_ & Hbe & Hle & _).
  cbv zeta in *. split.
  - unfold StringReader.get_u24b.
    rewrite read_then_advance_run, Hbe, size_add_nowrap by lia. reflexivity.
  - unfold StringReader.get_u24l.
    rewrite read_then_advance_run, Hle, size_add_nowrap by lia. reflexivity.
Qed.

Lemma get_u48_in_bounds (r : StringReader.t) :
  StringReader.wf r ->
  StringReader.offset r + 6 <= StringReader.length r ->
  StringReader.get_u48b true r
  = (Returns (be_value (bytes_at r (StringReader.offset r) 6)),
     StringReader.set_offset r (StringReader.offset r + 6))
  /\ StringReader.get_u48l true r
     = (Returns (le_value (bytes_at r (StringReader.offset r) 6)),
        StringReader.set_offset r (StringReader.offset r + 6)).
Proof.
  intros Hwf Hb. pose proof Hwf as (Hlen & Hmax & Hoff).
  unfold is_size_t in Hoff.
  destruct (pget_48_in_bounds r (StringReader.offset r) Hwf ltac:(lia) Hb)
    as (_ & Hbe & Hle & _).
  cbv zeta in *. split.
  - unfold StringReader.get_u48b.
    rewrite read_then_advance_run, Hbe, size_add_nowrap by lia. reflexivity.
  - unfold StringReader.get_u48l.
    rewrite read_then_advance_run, Hle, size_add_nowrap by lia. reflexivity.
Qed.

(** A 48-bit read is two 24-bit reads in a row: the first gives the high
    half for the big-endian accessor and the low half for the little-endian
    one, and the cursor ends in the same place. *)
Theorem u48_read_is_two_u24_reads (r : StringReader.t) :
  StringReader.wf r ->
  StringReader.offset r + 6 <= StringReader.length r ->
  (hi ← StringReader.get_u24b true;
   lo ← StringReader.get_u24b true;
   mret (hi * 2 ^ 24 + lo)) r
  = StringReader.get_u48b true r
  /\ (lo ← StringReader.get_u24l true;
      hi ← StringReader.get_u24l true;
      mret (lo + 2 ^ 24 * hi)) r
     = StringReader.get_u48l true r.
Proof.
  intros Hwf Hb. pose proof Hwf as (Hlen & Hmax & Hoff).
  unfold is_size_t in Hoff.
  destruct (get_u48_in_bounds r Hwf Hb) as [H48b H48l].
  destruct (get_u24_in_bounds r Hwf ltac:(lia)) as [H1b H1l].
  set (r1 := StringReader.set_offset r (StringReader.offset r + 3)) in *.
  assert (StringReader.wf r1) as Hwf1
    by (apply wf_set_offset; [assumption|unfold is_size_t; lia]).
  destruct (get_u24_in_bounds r1 Hwf1
              ltac:(subst r1; cbn [StringReader.set_offset StringReader.offset
                                     StringReader.length]; lia))
    as [H2b H2l].
  assert (bytes_at r1 (StringReader.offset r1) 3
          = bytes_at r (StringReader.offset r + 3) 3) as Hbytes by reflexivity.
  assert (StringReader.set_offset r1 (StringReader.offset r1 + 3)
          = StringReader.set_offset r (StringReader.offset r + 6)) as Hend.
  { subst r1. unfold StringReader.set_offset.
    cbn [StringReader.data StringReader.length StringReader.offset].
    f_equal. lia. }
  rewrite Hbytes, Hend in H2b, H2l.
  pose proof (bytes_at_split r (StringReader.offset r) 3 3
                ltac:(lia) ltac:(lia) ltac:(lia)) as Hsplit.
  change (3 + 3) with 6 in Hsplit.
  assert (List.length (bytes_at r (StringReader.offset r) 3) = 3%nat) as L1.
  { unfold bytes_at. rewrite length_take, length_drop. lia. }
  assert (List.length (bytes_at r (StringReader.offset r + 3) 3) = 3%nat) as L2.
  { unfold bytes_at. rewrite length_take, length_drop. lia. }
  unfold mbind, method_MBind, method_bind.
  rewrite H1b, H2b, H1l, H2l, H48b, H48l, Hsplit.
  rewrite be_value_app, le_value_app, L1, L2.
  split; reflexivity.
Qed.

Lemma u48_read_is_two_u24_reads_witness :
  let r := StringReader.of_string
             [Byte.x00; Byte.x01; Byte.x02; Byte.x03; Byte.x04; Byte.x05;
              Byte.x06] 1 in
  (hi ← StringReader.get_u24b true;
   lo ← StringReader.get_u24b true;
   mret (hi * 2 ^ 24 + lo)) r
  = StringReader.get_u48b true r.
Proof.
  intros r. refine (proj1 (u48_read_is_two_u24_reads r _ _)).
  - unfold StringReader.wf, is_size_t, SIZE_MAX. simpl. lia.
  - simpl. lia.
Defined.

(** ** Safe calls *)


(** ** StringWriter: further properties *)

Section StringWriterMore.

Variable max_size : Z.





(** A positional write that ends within what a string can hold returns,
    whether it lies inside the contents or ends past them; the contents
    afterwards, in one form for both cases. *)
Lemma pput_fits {V} (T : ctype V) (w : StringWriter.t) (offset : Z) (v : V) :
  StringWriter.wf max_size w -> ctype_ok T v -> 0 <= offset ->
  offset + sizeof T <= max_size ->
  exists before after : list byte,
    StringWriter.pput max_size T offset v w
    = (Returns tt,
       {| StringWriter.contents := before ++ to_bytes T v ++ after |})
    /\ Z.of_nat (List.length before) = offset
    /\ before
       = take (Z.to_nat offset) (StringWriter.contents w)
         ++ replicate (Z.to_nat (offset - StringWriter.size w)) Byte.x00
    /\ after = drop (Z.to_nat (offset + sizeof T)) (StringWriter.contents w).
Proof.
  intros Hwf Hok Ho Hfit.
  assert (0 <= sizeof T) as Hsz by (unfold ctype_ok in Hok; lia).
  pose proof Hwf as (Hsize & Hmax). unfold StringWriter.size in *.
  eexists _, _. split; [|split; [|split; reflexivity]].
  - destruct (Z.le_gt_cases (offset + sizeof T)
                (Z.of_nat (List.length (StringWriter.contents w))))
      as [Hin|Hout].
    + rewrite pput_inside by assumption.
      unfold StringWriter.size.
      replace (Z.to_nat (offset - _)) with 0%nat by lia.
      cbn [replicate]. rewrite app_nil_r. reflexivity.
    + rewrite pput_grows by assumption.
      rewrite (drop_ge _ (Z.to_nat (offset + sizeof T))) by lia.
      rewrite app_nil_r, <- app_assoc. reflexivity.
  - rewrite length_app, length_take, length_replicate. lia.
Qed.


(** A second positional write of the same type at the same offset replaces
    the first: the two writes in a row leave what the second alone leaves.
    With the same value twice, the write is idempotent. *)
Theorem pput_overwrites {V} (T : ctype V) (w : StringWriter.t) (offset : Z)
    (v1 v2 : V) :
  StringWriter.wf max_size w -> ctype_ok T v1 -> ctype_ok T v2 ->
  0 <= offset -> offset + sizeof T <= max_size ->
  (StringWriter.pput max_size T offset v1;;
   StringWriter.pput max_size T offset v2) w
  = StringWriter.pput max_size T offset v2 w.
Proof.
  intros Hwf Hok1 Hok2 Ho Hfit.
  destruct (pput_fits T w offset v1 Hwf Hok1 Ho Hfit)
    as (before & after & Hrun1 & Hlen & Hbefore & Hafter).
  destruct (pput_fits T w offset v2 Hwf Hok2 Ho Hfit)
    as (before2 & after2 & Hrun2 & _ & Hbefore2 & Hafter2).
  subst before2 after2. rewrite <- Hbefore, <- Hafter in Hrun2.
  unfold mbind, method_MBind, method_bind. rewrite Hrun1, Hrun2.
  unfold ctype_ok in *. pose proof Hwf as (Hsize & Hmax).
  assert (Z.of_nat (List.length after)
          = Z.max 0 (StringWriter.size w - (offset + sizeof T))) as Hla.
  { subst after. unfold StringWriter.size. rewrite length_drop. lia. }
  unfold StringWriter.size in *.
  rewrite pput_inside.
  - cbn [StringWriter.contents]. do 2 f_equal.
    rewrite take_app_length' by lia. f_equal. f_equal.
    rewrite app_assoc, drop_app_length'; [reflexivity|].
    rewrite length_app. lia.
  - split; [|exact Hmax]. unfold StringWriter.size.
    cbn [StringWriter.contents]. rewrite !length_app. lia.
  - exact Hok2.
  - exact Ho.
  - unfold StringWriter.size. cbn [StringWriter.contents].
    rewrite !length_app. lia.
Qed.


(** A positional write at the end of the contents is an append. *)
Theorem pput_at_end_is_put {V} (T : ctype V) (w : StringWriter.t) (v : V) :
  StringWriter.wf max_size w -> ctype_ok T v ->
  StringWriter.size w + sizeof T <= max_size ->
  StringWriter.pput max_size T (StringWriter.size w) v w
  = StringWriter.put max_size T v w.
Proof.
  intros Hwf Hok Hfit.
  assert (0 <= StringWriter.size w) as Hs by (unfold StringWriter.size; lia).
  destruct (pput_fits T w (StringWriter.size w) v Hwf Hok Hs Hfit)
    as (before & after & Hrun & _ & Hbefore & Hafter).
  rewrite Hrun, (put_run max_size T v w Hwf Hok Hfit).
  subst before after. unfold StringWriter.size, ctype_ok in *.
  rewrite take_ge, drop_ge by lia.
  replace (Z.to_nat (_ - _)) with 0%nat by lia.
  cbn [replicate]. rewrite !app_nil_r. reflexivity.
Qed.


(** What a positional write wrote is what a positional read of the same
    type at the same offset decodes, for a reader over the written
    string. *)
Theorem pput_then_pget {V} (T : ctype V) (w : StringWriter.t) (offset : Z)
    (v : V) (cursor : Z) :
  StringWriter.wf max_size w -> ctype_ok T v -> 0 <= offset ->
  offset + sizeof T <= max_size ->
  from_bytes T (to_bytes T v) = v ->
  exists w',
    StringWriter.pput max_size T offset v w = (Returns tt, w')
    /\ StringReader.pget T (StringReader.of_string (StringWriter.str w') cursor)
         offset (sizeof T)
       = Returns v.
Proof.
  intros Hwf Hok Ho Hfit Hrt.
  destruct (pput_fits T w offset v Hwf Hok Ho Hfit)
    as (before & after & Hrun & Hlen & _ & Hafter).
  eexists. split; [exact Hrun|].
  unfold ctype_ok in Hok. destruct Hwf as (Hsize & Hmax).
  assert (Z.of_nat (List.length (before ++ to_bytes T v ++ after))
          <= SIZE_MAX) as Htotal.
  { subst after. unfold StringWriter.size in *.
    rewrite !length_app, length_drop. lia. }
  unfold StringWriter.str, StringReader.pget.
  cbn [StringWriter.contents] in *.
  rewrite pgetv_in_bounds;
    [|lia|lia
     |cbn [StringReader.of_string StringReader.length];
      rewrite !length_app; lia
     |cbn [StringReader.of_string StringReader.length]; exact Htotal].
  cbn [mbind outcome_MBind StringReader.of_string StringReader.data].
  rewrite load_in_bounds by (rewrite ?length_app; lia).
  rewrite <- Hlen, Nat2Z.id, drop_app_length.
  rewrite <- Hok, Nat2Z.id, take_app_length.
  cbn [mbind outcome_MBind mret outcome_MRet]. rewrite Hrt. reflexivity.
Qed.

(** The contents after a positional write that fits, byte by byte: the
    representation of [v] in the window, the old byte where there was one,
    zero in the gap between the old end and the window. *)
Lemma pput_lookup {V} (T : ctype V) (w : StringWriter.t) (offset : Z) (v : V) :
  StringWriter.wf max_size w -> ctype_ok T v -> 0 <= offset ->
  offset + sizeof T <= max_size ->
  exists w',
    StringWriter.pput max_size T offset v w = (Returns tt, w')
    /\ StringWriter.size w' = Z.max (StringWriter.size w) (offset + sizeof T)
    /\ forall i : nat,
         StringWriter.contents w' !! i
         = if decide (offset <= Z.of_nat i < offset + sizeof T)
           then to_bytes T v !! (i - Z.to_nat offset)%nat
           else if decide (Z.of_nat i < StringWriter.size w)
                then StringWriter.contents w !! i
                else if decide (Z.of_nat i < offset)
                     then Some Byte.x00
                     else None.
Proof.
  intros Hwf Hok Ho Hfit.
  destruct (pput_fits T w offset v Hwf Hok Ho Hfit)
    as (before & after & Hrun & Hlen & Hbefore & Hafter).
  eexists. split; [exact Hrun|].
  unfold ctype_ok in Hok. unfold StringWriter.size in *.
  cbn [StringWriter.contents].
  assert (Z.of_nat (List.length after)
          = Z.max 0 (Z.of_nat (List.length (StringWriter.contents w))
                     - (offset + sizeof T))) as Hla.
  { subst after. rewrite length_drop. lia. }
  split; [rewrite !length_app; lia|].
  intros i. repeat case_decide.
  - rewrite lookup_app_r by lia. rewrite lookup_app_l by lia.
    f_equal. lia.
  - destruct (decide (Z.of_nat i < offset)) as [Hlt|Hge].
    + rewrite lookup_app_l by lia. subst before.
      rewrite lookup_app_l by (rewrite length_take; lia).
      apply lookup_take_lt. lia.
    + rewrite lookup_app_r by lia. rewrite lookup_app_r by lia.
      subst after. rewrite lookup_drop. f_equal. lia.
  - rewrite lookup_app_l by lia. subst before.
    rewrite lookup_app_r by (rewrite length_take; lia).
    apply lookup_replicate_2. rewrite length_take. lia.
  - apply lookup_ge_None_2. rewrite !length_app. lia.
Qed.

(** Positional writes to windows that do not overlap, and that both end
    within [max_size()], commute, whether they lie inside the contents or
    grow them. *)
Theorem pput_disjoint_commute {V1 V2} (T1 : ctype V1) (T2 : ctype V2)
    (w : StringWriter.t) (offset1 offset2 : Z) (v1 : V1) (v2 : V2) :
  StringWriter.wf max_size w -> ctype_ok T1 v1 -> ctype_ok T2 v2 ->
  0 <= offset1 -> offset1 + sizeof T1 <= offset2 ->
  offset2 + sizeof T2 <= max_size ->
  (StringWriter.pput max_size T1 offset1 v1;;
   StringWriter.pput max_size T2 offset2 v2) w
  = (StringWriter.pput max_size T2 offset2 v2;;
     StringWriter.pput max_size T1 offset1 v1) w.
Proof.
  intros Hwf Hok1 Hok2 Ho1 Hsep Hfit.
  assert (0 <= sizeof T1) as Hs1 by (unfold ctype_ok in Hok1; lia).
  assert (0 <= sizeof T2) as Hs2 by (unfold ctype_ok in Hok2; lia).
  pose proof Hwf as (Hsize & Hmax).
  destruct (pput_lookup T1 w offset1 v1 Hwf Hok1 Ho1 ltac:(lia))
    as (wa & Hra & Hsa & Hla).
  assert (StringWriter.wf max_size wa) as Hwfa by (split; [lia|exact Hmax]).
  destruct (pput_lookup T2 wa offset2 v2 Hwfa Hok2 ltac:(lia) Hfit)
    as (wab & Hrab & Hsab & Hlab).
  destruct (pput_lookup T2 w offset2 v2 Hwf Hok2 ltac:(lia) Hfit)
    as (wb & Hrb & Hsb & Hlb).
  assert (StringWriter.wf max_size wb) as Hwfb by (split; [lia|exact Hmax]).
  destruct (pput_lookup T1 wb offset1 v1 Hwfb Hok1 Ho1 ltac:(lia))
    as (wba & Hrba & Hsba & Hlba).
  unfold mbind, method_MBind, method_bind.
  rewrite Hra, Hrab, Hrb, Hrba. f_equal.
  destruct wab as [cab], wba as [cba]. f_equal.
  cbn [StringWriter.contents] in *.
  apply list_eq. intros i.
  rewrite Hlab, Hlba, Hla, Hlb, Hsa, Hsb.
  repeat case_decide; try reflexivity; lia.
Qed.

(** When the string can hold [n] more bytes, [size() + n <= max_size()],
    [extend_by(n, v)] appends [n] copies of [v]; it leaves what [n] calls of
    [put_u8] with that byte leave. *)
Theorem extend_by_is_repeated_put_u8 (w : StringWriter.t) (n : nat) (x : Z) :
  StringWriter.wf max_size w ->
  StringWriter.size w + Z.of_nat n <= max_size ->
  let w' := {| StringWriter.contents :=
                 StringWriter.contents w ++ replicate n (byte.of_Z x) |} in
  StringWriter.extend_by max_size (Z.of_nat n) (byte.of_Z x) w
  = (Returns tt, w')
  /\ call_times n (StringWriter.put_u8 max_size x) w
     = (Returns (replicate n tt), w').
Proof.
  intros Hwf Hfit w'. subst w'. split.
  - destruct Hwf as (Hsize & Hmax). unfold StringWriter.size in *.
    unfold StringWriter.extend_by. rewrite on_contents_run.
    rewrite size_add_nowrap by lia.
    unfold StringWriter.string_resize.
    destruct (_ >? max_size) eqn:E; [apply Z.gtb_lt in E; lia|].
    rewrite take_ge by lia. do 4 f_equal. lia.
  - revert w Hwf Hfit. induction n as [|n IH]; intros w Hwf Hfit.
    + cbn [call_times replicate]. rewrite app_nil_r. destruct w. reflexivity.
    + cbn [call_times]. unfold mbind, method_MBind, method_bind.
      unfold StringWriter.put_u8.
      rewrite (put_run max_size uint8_t x w Hwf eq_refl)
        by (cbn [sizeof uint8_t]; lia).
      destruct Hwf as (Hsize & Hmax). unfold StringWriter.size in *.
      fold (StringWriter.put_u8 max_size x).
      change (to_bytes uint8_t x) with [byte.of_Z x].
      assert (Z.of_nat (List.length (StringWriter.contents w ++ [byte.of_Z x]))
              = Z.of_nat (List.length (StringWriter.contents w)) + 1) as Hl
        by (rewrite length_app; cbn [List.length]; lia).
      rewrite IH.
      * unfold mret, method_MRet, method_ret.
        cbn [StringWriter.contents replicate].
        rewrite <- app_assoc. reflexivity.
      * split; [|exact Hmax]. unfold StringWriter.size.
        cbn [StringWriter.contents]. lia.
      * cbn [StringWriter.contents]. lia.
Qed.

End StringWriterMore.


Lemma pput_overwrites_witness :
  let w := {| StringWriter.contents := [Byte.x01; Byte.x02] |} in
  (StringWriter.pput (2 ^ 63 - 1) be_uint16_t 1 0x1234;;
   StringWriter.pput (2 ^ 63 - 1) be_uint16_t 1 0xABCD) w
  = (Returns tt,
     {| StringWriter.contents := [Byte.x01; Byte.xab; Byte.xcd] |}).
Proof.
  intros w.
  rewrite (pput_overwrites (2 ^ 63 - 1) be_uint16_t w 1 0x1234 0xABCD).
  - reflexivity.
  - unfold StringWriter.wf, StringWriter.size, SIZE_MAX, w. simpl. lia.
  - reflexivity.
  - reflexivity.
  - lia.
  - simpl. lia.
Defined.

Lemma pput_at_end_is_put_witness :
  let w := {| StringWriter.contents := [Byte.x01; Byte.x02] |} in
  StringWriter.pput (2 ^ 63 - 1) le_uint32_t (StringWriter.size w) 7 w
  = StringWriter.put (2 ^ 63 - 1) le_uint32_t 7 w.
Proof.
  intros w. apply pput_at_end_is_put.
  - unfold StringWriter.wf, StringWriter.size, SIZE_MAX, w. simpl. lia.
  - reflexivity.
  - unfold StringWriter.size, w. simpl. lia.
Defined.

Lemma pput_then_pget_witness :
  exists w',
    StringWriter.pput (2 ^ 63 - 1) uint8_t 3 0xEE
      {| StringWriter.contents := [Byte.x01] |} = (Returns tt, w')
    /\ StringReader.pget uint8_t
         (StringReader.of_string (StringWriter.str w') 0) 3 (sizeof uint8_t)
       = Returns 0xEE.
Proof.
  apply (pput_then_pget (2 ^ 63 - 1) uint8_t
           {| StringWriter.contents := [Byte.x01] |} 3 0xEE 0).
  - unfold StringWriter.wf, StringWriter.size, SIZE_MAX. simpl. lia.
  - reflexivity.
  - lia.
  - simpl. lia.
  - reflexivity.
Defined.

Lemma pput_disjoint_commute_witness :
  let w := {| StringWriter.contents := [Byte.x01] |} in
  (StringWriter.pput (2 ^ 63 - 1) uint8_t 0 0xAA;;
   StringWriter.pput (2 ^ 63 - 1) be_uint16_t 3 0x1234) w
  = (StringWriter.pput (2 ^ 63 - 1) be_uint16_t 3 0x1234;;
     StringWriter.pput (2 ^ 63 - 1) uint8_t 0 0xAA) w.
Proof.
  intros w. apply pput_disjoint_commute.
  - unfold StringWriter.wf, StringWriter.size, SIZE_MAX, w. simpl. lia.
  - reflexivity.
  - reflexivity.
  - lia.
  - simpl. lia.
  - simpl. lia.
Defined.

Lemma extend_by_is_repeated_put_u8_witness :
  let w := {| StringWriter.contents := [Byte.x01] |} in
  call_times 2 (StringWriter.put_u8 (2 ^ 63 - 1) 0x20) w
  = (Returns [tt; tt],
     {| StringWriter.contents := [Byte.x01; Byte.x20; Byte.x20] |}).
Proof.
  intros w.
  refine (proj2 (extend_by_is_repeated_put_u8 (2 ^ 63 - 1) w 2 0x20 _ _)).
  - unfold StringWriter.wf, StringWriter.size, SIZE_MAX, w. simpl. lia.
  - unfold StringWriter.size, w. simpl. lia.
Defined.

(** ** BufferWriter: further properties *)










Lemma write_in_bounds (w : BufferWriter.t) (data : list byte) (size : Z) :
  BufferWriter.wf w -> Z.of_nat (List.length data) = size ->
  BufferWriter.offset w + size <= BufferWriter.buf_size w ->
  BufferWriter.write data size w
  = (Returns tt,
     BufferWriter.set_offset
       (BufferWriter.set_buf w
          (take (Z.to_nat (BufferWriter.offset w)) (BufferWriter.buf w)
           ++ data
           ++ drop (Z.to_nat (BufferWriter.offset w + size))
                (BufferWriter.buf w)))
       (BufferWriter.offset w + size)).
Proof.
  intros Hwf Hsize Hb. pose proof Hwf as (Hlen & Hmax & Hoff).
  unfold is_size_t in Hoff.
  unfold BufferWriter.write, mbind, method_MBind, method_bind, this.
  rewrite (pwrite_in_bounds w _ data size Hwf) by (try assumption; lia).
  unfold modify. cbn [BufferWriter.set_buf BufferWriter.offset].
  rewrite size_add_nowrap by lia. reflexivity.
Qed.

(** Two writes in a row that fit the buffer are one write of the
    concatenated data. *)
Theorem writes_compose (w : BufferWriter.t) (data1 data2 : list byte) :
  BufferWriter.wf w ->
  BufferWriter.offset w + Z.of_nat (List.length data1)
  + Z.of_nat (List.length data2) <= BufferWriter.buf_size w ->
  (BufferWriter.write_string data1;; BufferWriter.write_string data2) w
  = BufferWriter.write_string (data1 ++ data2) w.
Proof.
  intros Hwf Hfit. pose proof Hwf as (Hlen & Hmax & Hoff).
  unfold is_size_t in Hoff.
  unfold BufferWriter.write_string, mbind, method_MBind, method_bind.
  rewrite (write_in_bounds w data1 _ Hwf eq_refl) by lia.
  set (o := BufferWriter.offset w) in *.
  set (n1 := List.length data1) in *. set (n2 := List.length data2) in *.
  rewrite write_in_bounds;
    [|split; [|split];
      cbn [BufferWriter.set_offset BufferWriter.set_buf BufferWriter.buf
             BufferWriter.buf_size BufferWriter.offset];
      [rewrite !length_app, length_take, length_drop; lia
      |exact Hmax|unfold is_size_t; lia]
     |reflexivity
     |cbn [BufferWriter.set_offset BufferWriter.set_buf
             BufferWriter.buf_size BufferWriter.offset]; lia].
  rewrite (write_in_bounds w (data1 ++ data2) _ Hwf eq_refl)
    by (rewrite length_app; lia).
  cbn [BufferWriter.set_offset BufferWriter.set_buf BufferWriter.buf
         BufferWriter.buf_size BufferWriter.offset].
  fold o. rewrite length_app. fold n1 n2.
  unfold BufferWriter.set_offset, BufferWriter.set_buf.
  cbn [BufferWriter.buf BufferWriter.buf_size BufferWriter.offset].
  f_equal. f_equal; [|lia].
  rewrite (app_assoc (take (Z.to_nat o) (BufferWriter.buf w)) data1).
  rewrite take_app_length' by (rewrite length_app, length_take; lia).
  rewrite drop_app_ge by (rewrite length_app, length_take; lia).
  rewrite drop_drop, <- !app_assoc, length_app, length_take.
  subst n1 n2.
  replace (Z.to_nat (o + Z.of_nat (List.length data1)) + _)%nat
    with (Z.to_nat (o + Z.of_nat (List.length data1 + List.length data2)))
    by lia.
  reflexivity.
Qed.

Lemma writes_compose_witness :
  let w := {| BufferWriter.buf := [Byte.x00; Byte.x00; Byte.x00; Byte.x00];
              BufferWriter.buf_size := 4; BufferWriter.offset := 1 |} in
  (BufferWriter.write_string [Byte.x0a];;
   BufferWriter.write_string [Byte.x0b; Byte.x0c]) w
  = BufferWriter.write_string [Byte.x0a; Byte.x0b; Byte.x0c] w.
Proof.
  intros w. apply (writes_compose w [Byte.x0a] [Byte.x0b; Byte.x0c]).
  - unfold BufferWriter.wf, is_size_t, SIZE_MAX. simpl. lia.
  - simpl. lia.
Defined.

(** What [put<T>] wrote into the buffer is what [get<T>] returns from a
    reader over the buffer placed at the writer's old cursor, and both
    cursors end in the same place. *)
Theorem buffer_put_then_get {V} (T : ctype V) (w : BufferWriter.t) (v : V) :
  BufferWriter.wf w -> ctype_ok T v ->
  BufferWriter.offset w + sizeof T <= BufferWriter.buf_size w ->
  from_bytes T (to_bytes T v) = v ->
  exists w',
    BufferWriter.put T v w = (Returns tt, w')
    /\ BufferWriter.offset w' = BufferWriter.offset w + sizeof T
    /\ let r := StringReader.of_string (BufferWriter.buf w')
                  (BufferWriter.offset w) in
       StringReader.get T true (sizeof T) r
       = (Returns v, StringReader.set_offset r (BufferWriter.offset w')).
Proof.
  intros Hwf Hok Hfit Hrt. pose proof Hwf as (Hlen & Hmax & Hoff).
  unfold is_size_t in Hoff. unfold ctype_ok in Hok.
  eexists. split; [apply (write_in_bounds w _ _ Hwf Hok Hfit)|].
  cbn [BufferWriter.set_offset BufferWriter.set_buf BufferWriter.buf
         BufferWriter.offset].
  split; [reflexivity|]. cbv zeta.
  set (o := BufferWriter.offset w) in *.
  set (buf' := take (Z.to_nat o) (BufferWriter.buf w) ++ to_bytes T v
               ++ drop (Z.to_nat (o + sizeof T)) (BufferWriter.buf w)).
  assert (List.length buf' = List.length (BufferWriter.buf w)) as Hl.
  { subst buf'. rewrite !length_app, length_take, length_drop. lia. }
  rewrite get_in_bounds;
    [|unfold StringReader.wf, is_size_t;
      cbn [StringReader.of_string StringReader.data StringReader.length
             StringReader.offset]; lia
     |lia
     |cbn [StringReader.of_string StringReader.length StringReader.offset];
      lia].
  cbn [StringReader.of_string StringReader.offset].
  assert (bytes_at (StringReader.of_string buf' o) o (sizeof T)
          = to_bytes T v) as Hbytes.
  { unfold bytes_at. cbn [StringReader.of_string StringReader.data].
    subst buf'. rewrite drop_app_length' by (rewrite length_take; lia).
    apply take_app_length'. lia. }
  unfold StringReader.of_string in *. rewrite Hbytes, Hrt. reflexivity.
Qed.

Lemma buffer_put_then_get_witness :
  let w := {| BufferWriter.buf := [Byte.x00; Byte.x00; Byte.x00; Byte.x00];
              BufferWriter.buf_size := 4; BufferWriter.offset := 1 |} in
  exists w',
    BufferWriter.put le_int16_t (-2) w = (Returns tt, w')
    /\ BufferWriter.offset w' = 3
    /\ let r := StringReader.of_string (BufferWriter.buf w') 1 in
       StringReader.get le_int16_t true (sizeof le_int16_t) r
       = (Returns (-2), StringReader.set_offset r (BufferWriter.offset w')).
Proof.
  intros w. apply (buffer_put_then_get le_int16_t w (-2)).
  - unfold BufferWriter.wf, is_size_t, SIZE_MAX. simpl. lia.
  - reflexivity.
  - simpl. lia.
  - reflexivity.
Defined.

(** ** Log levels *)

(** Log filtering is a threshold on the integer value of the level.  For a
    prefixed logger and any global level: a message level at least as high
    as one that is logged is logged too; a logger whose own minimum is
    [L_DISABLED] logs none of the other levels, whatever the global level; a
    logger without a level of its own decides exactly as the free function
    does with the global level; and unless the global level is itself
    [L_USE_DEFAULT], the effective level is never [L_USE_DEFAULT] and a
    message sent at [L_USE_DEFAULT] is dropped. *)
Theorem prefixed_logger_threshold (log_level : LogLevel)
    (l : PrefixedLogger.t) :
  (forall a b : LogLevel,
     LogLevel_to_int a <= LogLevel_to_int b ->
     PrefixedLogger.should_log log_level l a = true ->
     PrefixedLogger.should_log log_level l b = true) /\
  (PrefixedLogger.min_level l = L_DISABLED ->
   forall a : LogLevel, a <> L_DISABLED ->
     PrefixedLogger.should_log log_level l a = false) /\
  (PrefixedLogger.min_level l = L_USE_DEFAULT ->
   forall a : LogLevel,
     PrefixedLogger.should_log log_level l a = should_log a log_level) /\
  (log_level <> L_USE_DEFAULT ->
   PrefixedLogger.effective_level log_level l <> L_USE_DEFAULT /\
   PrefixedLogger.should_log log_level l L_USE_DEFAULT = false).
Proof.
  unfold PrefixedLogger.should_log, should_log, PrefixedLogger.effective_level.
  repeat split.
  - intros a b Hab Ha. apply Z.geb_le. apply Z.geb_le in Ha. lia.
  - intros Hmin a Ha. rewrite Hmin. destruct a; try reflexivity.
    contradiction.
  - intros Hmin a. rewrite Hmin. reflexivity.
  - destruct (PrefixedLogger.min_level l); try discriminate. exact H.
  - destruct (PrefixedLogger.min_level l), log_level;
      try reflexivity; contradiction.
Qed.
